(** * Shared State API: the persistence layer of [app/database.py]

    The four functions of [app/database.py] ([init_db], [get_current_state],
    [update_state], [get_logs]) are embedded over a model of the SQLite file
    they talk to through Python's [sqlite3] module:

    - the file holds a journal mode and two optional tables, [shared_state]
      and [update_logs], each a list of rows in rowid order together with its
      AUTOINCREMENT sequence; an INSERT takes the rowid after the largest
      one the table ever had and fails with "database or disk is full" when
      that was the largest 64-bit integer;
    - a connection sees the file plus the changes of its own open
      transaction; [sqlite3] opens that transaction implicitly before an
      UPDATE or INSERT and only [conn.commit()] publishes it, a connection
      dropped without commit rolls it back;
    - every statement may be refused by the storage engine (fault
      injection), and CURRENT_TIMESTAMP is read from an explicit clock;
    - Python [int]s are [Z], [str]s are [string], [None] is [None]; an
      exception is an [Err] result. *)

From Stdlib Require Import ZArith List String Ascii Bool Lia.
From Stdlib Require Import Sorted Permutation OrderedTypeEx.
Import ListNotations.

Local Open Scope Z_scope.

(** ** Results of a call: a value or a Python exception *)

Inductive error : Type :=
| OperationalError (msg : string)   (* sqlite3.OperationalError *)
| OverflowError                     (* Python int too large for SQLite INTEGER *)
| ZeroDivisionError.                (* integer division or modulo by zero *)

Inductive result (A : Type) : Type :=
| Ok (a : A)
| Err (e : error).

Arguments Ok {A} a.
Arguments Err {A} e.

(** ** The SQLite file *)

Module Sqlite.

(** CURRENT_TIMESTAMP is the text [YYYY-MM-DD HH:MM:SS]; SQLite compares
    TEXT bytewise, which is [String.compare]. *)
Definition timestamp : Type := string.

(** Columns declared without NOT NULL hold NULL ([None]) or a value. *)
Record StateRow : Type := {
  sr_id : Z;
  sr_counter : option Z;
  sr_message : option string;
  sr_updated_at : timestamp
}.

Record LogRow : Type := {
  lr_id : Z;
  lr_timestamp : timestamp;
  lr_old_counter : option Z;
  lr_new_counter : option Z;
  lr_old_message : option string;
  lr_new_message : option string;
  lr_update_type : string
}.

(** A table: its rows in rowid order, and the largest rowid it ever handed
    out (its entry in [sqlite_sequence], kept because of AUTOINCREMENT). *)
Record table (R : Type) : Type := {
  rows : list R;
  seq : Z
}.
Arguments rows {R} _.
Arguments seq {R} _.

Inductive journal : Type := DELETE | WAL.

Record database : Type := {
  journal_mode : journal;
  shared_state : option (table StateRow);
  update_logs : option (table LogRow)
}.

(** A file that was just created: no table yet, rollback journal. *)
Definition empty_database : database :=
  {| journal_mode := DELETE; shared_state := None; update_logs := None |}.

Definition state_rows (db : database) : list StateRow :=
  match shared_state db with Some t => rows t | None => [] end.

Definition log_rows (db : database) : list LogRow :=
  match update_logs db with Some t => rows t | None => [] end.

(** *** Values bound to [?] placeholders

    [sqlite3] binds a Python [int] as a signed 64-bit INTEGER and raises
    [OverflowError] outside that range; [None] is bound as NULL. *)
Definition min_int64 : Z := - 2 ^ 63.
Definition max_int64 : Z := 2 ^ 63 - 1.

Definition in_int64 (z : Z) : bool := (min_int64 <=? z) && (z <=? max_int64).

Definition bindable (v : option Z) : bool :=
  match v with Some z => in_int64 z | None => true end.

(** *** Query fragments *)

(** [ORDER BY id DESC LIMIT 1]: the row with the largest id. *)
Fixpoint latest (rs : list StateRow) : option StateRow :=
  match rs with
  | [] => None
  | r :: rs' =>
      match latest rs' with
      | Some r' => if sr_id r <? sr_id r' then Some r' else Some r
      | None => Some r
      end
  end.

(** [SET counter = ?, message = ?, updated_at = CURRENT_TIMESTAMP
     WHERE id = (SELECT id FROM shared_state ORDER BY id DESC LIMIT 1)]:
    the scalar subquery is NULL on an empty table and then no row matches. *)
Definition set_latest (c : option Z) (m : option string) (now : timestamp)
    (rs : list StateRow) : list StateRow :=
  match latest rs with
  | None => rs
  | Some l =>
      map (fun r =>
             if sr_id r =? sr_id l
             then {| sr_id := sr_id r; sr_counter := c; sr_message := m;
                     sr_updated_at := now |}
             else r) rs
  end.

(** AUTOINCREMENT: the largest rowid that ever existed in the table, taken
    from its sequence and its rows. *)
Definition largest_rowid {R : Type} (id : R -> Z) (t : table R) : Z :=
  Z.max (seq t) (fold_right (fun r acc => Z.max (id r) acc) 0 (rows t)).

(** Once that rowid is the largest 64-bit integer the table takes no more
    rows. *)
Definition exhausted {R : Type} (id : R -> Z) (t : table R) : bool :=
  max_int64 <=? largest_rowid id t.

(** The rowid of the next row: one more than the largest, if there is one
    left. *)
Definition next_rowid {R : Type} (id : R -> Z) (t : table R) : option Z :=
  if exhausted id t then None else Some (largest_rowid id t + 1).

Definition append_row {R : Type} (id : R -> Z) (t : table R) (mk : Z -> R)
    : option (table R) :=
  match next_rowid id t with
  | Some i => Some {| rows := rows t ++ [mk i]; seq := i |}
  | None => None
  end.

(** [ORDER BY timestamp DESC]: rows with the greater timestamp text first.
    SQL leaves the order of equal timestamps open; the model keeps them in
    rowid order (a stable insertion sort). *)
Fixpoint insert_desc (r : LogRow) (sorted : list LogRow) : list LogRow :=
  match sorted with
  | [] => [r]
  | x :: xs =>
      if String.leb (lr_timestamp x) (lr_timestamp r)
      then r :: x :: xs
      else x :: insert_desc r xs
  end.

Definition order_by_timestamp_desc (rs : list LogRow) : list LogRow :=
  fold_right insert_desc [] rs.

(** [LIMIT ? OFFSET ?]: a negative limit is no limit, a negative offset is
    offset 0. *)
Definition limit_offset {R : Type} (limit offset : Z) (rs : list R) : list R :=
  let rest := skipn (Z.to_nat offset) rs in
  if limit <? 0 then rest else firstn (Z.to_nat limit) rest.

(** *** Connections *)

Record connection : Type := {
  file : database;           (* what is committed, what others see *)
  txn : option database;     (* the open transaction's view, if any *)
  pc : nat                   (* statements executed so far *)
}.

Definition view (c : connection) : database :=
  match txn c with Some d => d | None => file c end.

(** A computation on a connection: it reads the clock (indexed by
    statement), may be hit by the injected fault, and ends in a value or an
    exception, with the connection as it then is. *)
Definition M (A : Type) : Type :=
  (nat -> timestamp) -> option nat -> connection -> result A * connection.

Definition ret {A : Type} (a : A) : M A := fun _ _ c => (Ok a, c).

Definition raise {A : Type} (e : error) : M A := fun _ _ c => (Err e, c).

Definition bind {A B : Type} (m : M A) (k : A -> M B) : M B :=
  fun clock fault c =>
    match m clock fault c with
    | (Ok a, c') => k a clock fault c'
    | (Err e, c') => (Err e, c')
    end.

End Sqlite.

Import Sqlite.

Declare Scope db_scope.
Delimit Scope db_scope with db.
Notation "x <- m ;; k" := (bind m (fun x => k))
  (at level 61, m at next level, right associativity) : db_scope.
Notation "m ;; k" := (bind m (fun _ => k))
  (at level 61, right associativity) : db_scope.

Local Open Scope db_scope.

(** ** Statements, as [cursor.execute] and [conn.commit] run them *)

(** The injected fault names the statement, counted from 0 on its
    connection, that the storage engine refuses; [None] injects nothing. *)
Definition hit (fault : option nat) (n : nat) : bool :=
  match fault with Some k => Nat.eqb k n | None => false end.

Definition tick (c : connection) : connection :=
  {| file := file c; txn := txn c; pc := S (pc c) |}.

(** Every trip to the engine takes the next statement number, unless the
    fault hits it: then the call raises and the connection is as it was. *)
Definition step : M nat :=
  fun _ fault c =>
    if hit fault (pc c)
    then (Err (OperationalError "disk I/O error"), c)
    else (Ok (pc c), tick c).

(** CURRENT_TIMESTAMP as statement [k] evaluates it. *)
Definition current_timestamp (k : nat) : M timestamp :=
  fun clock _ c => (Ok (clock k), c).

(** A statement reads the file together with the connection's own
    uncommitted changes. *)
Definition read : M database := fun _ _ c => (Ok (view c), c).

(** [sqlite3] issues BEGIN before an INSERT or UPDATE when no transaction is
    open. *)
Definition begin : M unit :=
  fun _ _ c =>
    match txn c with
    | Some _ => (Ok tt, c)
    | None => (Ok tt, {| file := file c; txn := Some (file c); pc := pc c |})
    end.

(** A change goes to the open transaction, or straight to the file when the
    connection is in autocommit mode. *)
Definition write (f : database -> database) : M unit :=
  fun _ _ c =>
    match txn c with
    | Some d => (Ok tt, {| file := file c; txn := Some (f d); pc := pc c |})
    | None => (Ok tt, {| file := f (file c); txn := None; pc := pc c |})
    end.

(** Binding one [int] or [None] parameter. *)
Definition bind_int (v : option Z) : M unit :=
  if bindable v then ret tt else raise OverflowError.

Definition no_such_table {A : Type} (name : string) : M A :=
  raise (OperationalError (String.append "no such table: " name)).

(** SQLITE_FULL, which an INSERT into an AUTOINCREMENT table raises when the
    table has no rowid left. *)
Definition database_full {A : Type} : M A :=
  raise (OperationalError "database or disk is full").

Definition with_shared_state (db : database) (t : table StateRow) : database :=
  {| journal_mode := journal_mode db; shared_state := Some t;
     update_logs := update_logs db |}.

Definition with_update_logs (db : database) (t : table LogRow) : database :=
  {| journal_mode := journal_mode db; shared_state := shared_state db;
     update_logs := Some t |}.

(** [PRAGMA journal_mode=WAL]: has no effect inside a transaction. *)
Definition pragma_journal_mode_wal : M unit :=
  _ <- step ;;
  fun clock fault c =>
    match txn c with
    | Some _ => (Ok tt, c)
    | None =>
        (Ok tt,
         {| file := {| journal_mode := WAL;
                       shared_state := shared_state (file c);
                       update_logs := update_logs (file c) |};
            txn := None; pc := pc c |})
    end.

(** [CREATE TABLE IF NOT EXISTS shared_state (...)] *)
Definition create_shared_state : M unit :=
  _ <- step ;;
  write (fun d => match shared_state d with
                  | Some _ => d
                  | None => with_shared_state d {| rows := []; seq := 0 |}
                  end).

(** [CREATE TABLE IF NOT EXISTS update_logs (...)] *)
Definition create_update_logs : M unit :=
  _ <- step ;;
  write (fun d => match update_logs d with
                  | Some _ => d
                  | None => with_update_logs d {| rows := []; seq := 0 |}
                  end).

(** [SELECT COUNT( * ) FROM shared_state], then [fetchone()[0]] *)
Definition count_shared_state : M Z :=
  _ <- step ;;
  db <- read ;;
  match shared_state db with
  | None => no_such_table "shared_state"
  | Some t => ret (Z.of_nat (List.length (rows t)))
  end.

(** [SELECT COUNT( * ) FROM update_logs], then [fetchone()[0]] *)
Definition count_update_logs : M Z :=
  _ <- step ;;
  db <- read ;;
  match update_logs db with
  | None => no_such_table "update_logs"
  | Some t => ret (Z.of_nat (List.length (rows t)))
  end.

(** The row [INSERT INTO shared_state (counter, message) VALUES (0, '')]
    stores: the two values, the default [updated_at] and its rowid. *)
Definition default_row (now : timestamp) (i : Z) : StateRow :=
  {| sr_id := i; sr_counter := Some 0; sr_message := Some ""%string;
     sr_updated_at := now |}.

(** [INSERT INTO shared_state (counter, message) VALUES (0, '')] *)
Definition insert_default_state : M unit :=
  k <- step ;;
  db <- read ;;
  match shared_state db with
  | None => no_such_table "shared_state"
  | Some t =>
      begin ;;
      now <- current_timestamp k ;;
      match append_row sr_id t (default_row now) with
      | None => database_full
      | Some t' => write (fun d => with_shared_state d t')
      end
  end.

(** [SELECT * FROM shared_state ORDER BY id DESC LIMIT 1], then [fetchone()] *)
Definition select_latest_state : M (option StateRow) :=
  _ <- step ;;
  db <- read ;;
  match shared_state db with
  | None => no_such_table "shared_state"
  | Some t => ret (latest (rows t))
  end.

(** [UPDATE shared_state SET counter = ?, message = ?,
     updated_at = CURRENT_TIMESTAMP WHERE id = (SELECT id ... LIMIT 1)] *)
Definition update_latest_state (new_counter : option Z)
    (new_message : option string) : M unit :=
  k <- step ;;
  db <- read ;;
  match shared_state db with
  | None => no_such_table "shared_state"
  | Some _ =>
      begin ;;
      bind_int new_counter ;;
      now <- current_timestamp k ;;
      write (fun d =>
               match shared_state d with
               | None => d
               | Some t =>
                   with_shared_state d
                     {| rows := set_latest new_counter new_message now (rows t);
                        seq := seq t |}
               end)
  end.

(** The row an INSERT into [update_logs] stores: the five bound values, the
    default [timestamp] and the rowid it is given. *)
Definition log_record (now : timestamp) (old_counter new_counter : option Z)
    (old_message new_message : option string) (update_type : string)
    (i : Z) : LogRow :=
  {| lr_id := i; lr_timestamp := now;
     lr_old_counter := old_counter; lr_new_counter := new_counter;
     lr_old_message := old_message; lr_new_message := new_message;
     lr_update_type := update_type |}.

(** [INSERT INTO update_logs (old_counter, new_counter, old_message,
     new_message, update_type) VALUES (?, ?, ?, ?, ?)] *)
Definition insert_log (old_counter new_counter : option Z)
    (old_message new_message : option string) (update_type : string) : M unit :=
  k <- step ;;
  db <- read ;;
  match update_logs db with
  | None => no_such_table "update_logs"
  | Some t =>
      begin ;;
      bind_int old_counter ;;
      bind_int new_counter ;;
      now <- current_timestamp k ;;
      match append_row lr_id t
              (log_record now old_counter new_counter
                          old_message new_message update_type) with
      | None => database_full
      | Some t' => write (fun d => with_update_logs d t')
      end
  end.

(** [SELECT * FROM update_logs ORDER BY timestamp DESC LIMIT ? OFFSET ?],
    then [fetchall()] *)
Definition select_logs_page (limit offset : Z) : M (list LogRow) :=
  _ <- step ;;
  db <- read ;;
  match update_logs db with
  | None => no_such_table "update_logs"
  | Some t =>
      bind_int (Some limit) ;;
      bind_int (Some offset) ;;
      ret (limit_offset limit offset (order_by_timestamp_desc (rows t)))
  end.

(** [conn.commit()]: the open transaction becomes the file. *)
Definition commit : M unit :=
  _ <- step ;;
  fun _ _ c => (Ok tt, {| file := view c; txn := None; pc := pc c |}).

(** A call on the file: [sqlite3.connect] opens a fresh connection, and when
    the function returns or raises, the connection goes away and with it
    whatever its transaction had not committed. *)
Definition Op (A : Type) : Type :=
  (nat -> timestamp) -> option nat -> database -> result A * database.

Definition connect {A : Type} (body : M A) : Op A :=
  fun clock fault db =>
    let '(r, c) := body clock fault {| file := db; txn := None; pc := 0 |} in
    (r, file c).

(** ** Python helpers *)

(** [a // b] on ints: floor division, [ZeroDivisionError] for [b = 0]. *)
Definition floordiv (a b : Z) : M Z :=
  if b =? 0 then raise ZeroDivisionError else ret (a / b).

(** [sep.join(parts)] *)
Definition join (sep : string) (parts : list string) : string :=
  String.concat sep parts.

(** ** [app/schemas.py] and the dicts [app/database.py] returns *)

Record LogEntry : Type := {
  le_id : Z;
  le_timestamp : string;
  le_old_counter : option Z;
  le_new_counter : option Z;
  le_old_message : option string;
  le_new_message : option string;
  le_update_type : string
}.

(** [{"counter": ..., "message": ...}] *)
Record State : Type := {
  st_counter : option Z;
  st_message : option string
}.

(** [{"old_counter": ..., "new_counter": ..., "old_message": ...,
      "new_message": ...}] *)
Record UpdateResult : Type := {
  ur_old_counter : option Z;
  ur_new_counter : option Z;
  ur_old_message : option string;
  ur_new_message : option string
}.

(** [{"logs": ..., "page": ..., "limit": ..., "total": ..., "total_pages": ...}] *)
Record LogsPage : Type := {
  lp_logs : list LogEntry;
  lp_page : Z;
  lp_limit : Z;
  lp_total : Z;
  lp_total_pages : Z
}.

Definition entry_of_row (row : LogRow) : LogEntry :=
  {| le_id := lr_id row;
     le_timestamp := lr_timestamp row;
     le_old_counter := lr_old_counter row;
     le_new_counter := lr_new_counter row;
     le_old_message := lr_old_message row;
     le_new_message := lr_new_message row;
     le_update_type := lr_update_type row |}.

(** ** [app/database.py] *)

Definition init_db : Op unit :=
  connect (
    pragma_journal_mode_wal ;;
    create_shared_state ;;
    create_update_logs ;;
    n <- count_shared_state ;;
    (if n =? 0 then insert_default_state else ret tt) ;;
    commit).

Definition get_current_state : Op State :=
  connect (
    row <- select_latest_state ;;
    match row with
    | Some r => ret {| st_counter := sr_counter r; st_message := sr_message r |}
    | None => ret {| st_counter := Some 0; st_message := Some ""%string |}
    end).

Definition update_state (counter : option Z) (message : option string)
    : Op UpdateResult :=
  connect (
    current <- select_latest_state ;;
    let old_counter :=
      match current with Some r => sr_counter r | None => Some 0 end in
    let old_message :=
      match current with Some r => sr_message r | None => Some ""%string end in
    let new_counter :=
      match counter with Some _ => counter | None => old_counter end in
    let new_message :=
      match message with Some _ => message | None => old_message end in
    update_latest_state new_counter new_message ;;
    let update_type :=
      ((match counter with Some _ => ["counter"%string] | None => [] end)
       ++ (match message with Some _ => ["message"%string] | None => [] end))%list in
    insert_log old_counter new_counter old_message new_message
      (join ", " update_type) ;;
    commit ;;
    ret {| ur_old_counter := old_counter; ur_new_counter := new_counter;
           ur_old_message := old_message; ur_new_message := new_message |}).

Definition get_logs (page limit : Z) : Op LogsPage :=
  connect (
    total <- count_update_logs ;;
    let offset := (page - 1) * limit in
    total_pages <-
      (if total >? 0 then floordiv (total + limit - 1) limit else ret 1) ;;
    rows <- select_logs_page limit offset ;;
    ret {| lp_logs := map entry_of_row rows; lp_page := page;
           lp_limit := limit; lp_total := total;
           lp_total_pages := total_pages |}).

(** ** [app/dependencies.py] and [app/routes.py]

    The endpoints are modelled on requests that FastAPI has parsed: a header
    is present or not, a query parameter is an [int] or absent, a JSON body
    has fields of the declared types. What the function signatures declare
    ([Header(...)], [Depends(verify_api_key)], [Query(1, ge=1)],
    [Query(10, ge=1, le=100)], the model validator of [UpdateRequest]) runs
    before the function body. *)

(** How a request ends when it produces no response body. *)
Inductive http_error : Type :=
| Unauthorized (detail : string)   (* HTTPException(status_code=401, detail=...) *)
| Unprocessable                    (* 422: the request failed validation *)
| Unhandled (e : error).           (* an exception nothing catches: 500 *)

Inductive reply (A : Type) : Type :=
| Replied (a : A)
| Failed (e : http_error).

Arguments Replied {A} a.
Arguments Failed {A} e.

(** A pydantic validator returns the value or raises [ValueError]. *)
Inductive validated (A : Type) : Type :=
| Valid (a : A)
| ValueError (msg : string).

Arguments Valid {A} a.
Arguments ValueError {A} msg.

(** [UpdateRequest], after pydantic has parsed the two optional fields. *)
Record UpdateRequest : Type := {
  req_counter : option Z;
  req_message : option string
}.

Definition validate_at_least_one_field (self : UpdateRequest)
    : validated UpdateRequest :=
  match req_counter self, req_message self with
  | None, None => ValueError "At least one of counter or message must be provided"
  | _, _ => Valid self
  end.

(** The body of the [POST /update] response. *)
Record UpdateResponse : Type := {
  up_success : bool;
  up_message : string;
  up_old_state : State;
  up_new_state : State
}.

Section Routes.

(** [settings.API_KEY], read from the environment when the process starts. *)
Variable API_KEY : string.

Definition verify_api_key (x_api_key : string) : reply string :=
  if negb (String.eqb x_api_key API_KEY)
  then Failed (Unauthorized "Invalid API Key")
  else Replied x_api_key.

(** [POST /update]: the required [X-API-Key] header goes through
    [verify_api_key], the body through [UpdateRequest]'s validator, and only
    then the function body calls [update_state]. *)
Definition update_state_endpoint (x_api_key : option string)
    (body : UpdateRequest)
    : (nat -> timestamp) -> option nat -> database ->
      reply UpdateResponse * database :=
  fun clock fault db =>
    match x_api_key with
    | None => (Failed Unprocessable, db)
    | Some key =>
        match verify_api_key key with
        | Failed e => (Failed e, db)
        | Replied _ =>
            match validate_at_least_one_field body with
            | ValueError _ => (Failed Unprocessable, db)
            | Valid request =>
                match update_state (req_counter request) (req_message request)
                        clock fault db with
                | (Ok result, db') =>
                    (Replied
                       {| up_success := true;
                          up_message := "State updated successfully";
                          up_old_state :=
                            {| st_counter := ur_old_counter result;
                               st_message := ur_old_message result |};
                          up_new_state :=
                            {| st_counter := ur_new_counter result;
                               st_message := ur_new_message result |} |},
                     db')
                | (Err e, db') => (Failed (Unhandled e), db')
                end
            end
        end
    end.

End Routes.

(** [GET /logs]: [page] defaults to 1 and must be at least 1, [limit]
    defaults to 10 and must lie in [1, 100]; the result of [get_logs] is
    returned as the [LogsResponse]. *)
Definition get_logs_endpoint (page limit : option Z)
    : (nat -> timestamp) -> option nat -> database ->
      reply LogsPage * database :=
  fun clock fault db =>
    let page := match page with Some p => p | None => 1 end in
    let limit := match limit with Some l => l | None => 10 end in
    if (1 <=? page) && ((1 <=? limit) && (limit <=? 100))
    then match get_logs page limit clock fault db with
         | (Ok result, db') => (Replied result, db')
         | (Err e, db') => (Failed (Unhandled e), db')
         end
    else (Failed Unprocessable, db).

(** * Vocabulary of the statements *)

(** ** Orders and frame conditions *)

(** Newest first: whatever comes later in the list is not newer. *)
Definition newest_first (a b : LogRow) : Prop :=
  String.leb (lr_timestamp b) (lr_timestamp a) = true.

(** A computation is quiet when it never touches the committed file and
    never closes a transaction. *)
Definition quiet {A : Type} (m : M A) : Prop :=
  forall clock fault c r c', m clock fault c = (r, c') ->
    file c' = file c /\ (txn c <> None -> txn c' <> None).

(** The same, for computations that only run inside a transaction. *)
Definition guarded {A : Type} (m : M A) : Prop :=
  forall clock fault c r c', txn c <> None -> m clock fault c = (r, c') ->
    file c' = file c /\ txn c' <> None.

(** A computation is atomic when a raised exception leaves the committed
    file as it was. *)
Definition atomic {A : Type} (m : M A) : Prop :=
  forall clock fault c e c', m clock fault c = (Err e, c') -> file c' = file c.

(** ** Outcomes of the calls *)

(** The state a caller reads from the file: the latest row, or the
    defaults when there is no row. *)
Definition stored_counter (db : database) : option Z :=
  match latest (state_rows db) with Some r => sr_counter r | None => Some 0 end.

Definition stored_message (db : database) : option string :=
  match latest (state_rows db) with
  | Some r => sr_message r
  | None => Some ""%string
  end.

Definition merged {A : Type} (requested current : option A) : option A :=
  match requested with Some _ => requested | None => current end.

Definition label (counter : option Z) (message : option string) : string :=
  join ", "
    ((match counter with Some _ => ["counter"%string] | None => [] end)
     ++ (match message with Some _ => ["message"%string] | None => [] end)).

(** The table after an INSERT that found a rowid. *)
Definition appended {R : Type} (id : R -> Z) (t : table R) (mk : Z -> R)
    : table R :=
  {| rows := rows t ++ [mk (largest_rowid id t + 1)];
     seq := largest_rowid id t + 1 |}.

(** The file a successful [update_state] leaves behind. *)
Definition updated (clock : nat -> timestamp) (counter : option Z)
    (message : option string) (db : database)
    (st : table StateRow) (lg : table LogRow) : database :=
  {| journal_mode := journal_mode db;
     shared_state :=
       Some {| rows := set_latest (merged counter (stored_counter db))
                         (merged message (stored_message db))
                         (clock 1%nat) (rows st);
               seq := seq st |};
     update_logs :=
       Some (appended lr_id lg
               (log_record (clock 2%nat)
                  (stored_counter db) (merged counter (stored_counter db))
                  (stored_message db) (merged message (stored_message db))
                  (label counter message))) |}.

Definition update_result (counter : option Z) (message : option string)
    (db : database) : UpdateResult :=
  {| ur_old_counter := stored_counter db;
     ur_new_counter := merged counter (stored_counter db);
     ur_old_message := stored_message db;
     ur_new_message := merged message (stored_message db) |}.

Definition io_error {A : Type} : result A :=
  Err (OperationalError "disk I/O error").

Definition full_error {A : Type} : result A :=
  Err (OperationalError "database or disk is full").

Definition missing {A : Type} (name : string) : result A :=
  Err (OperationalError (String.append "no such table: " name)).

(** The transaction an INSERT or UPDATE works in. *)
Definition in_txn (c : connection) (d : database) : connection :=
  {| file := file c; txn := Some d; pc := S (pc c) |}.

(** The page [get_logs] returns when nothing fails. *)
Definition logs_page (page limit : Z) (rs : list LogRow) : LogsPage :=
  let total := Z.of_nat (List.length rs) in
  {| lp_logs :=
       map entry_of_row
         (limit_offset limit ((page - 1) * limit) (order_by_timestamp_desc rs));
     lp_page := page;
     lp_limit := limit;
     lp_total := total;
     lp_total_pages := if total >? 0 then (total + limit - 1) / limit else 1 |}.

(** The file [init_db] leaves behind when nothing fails, and the file its
    PRAGMA and CREATE statements leave when the INSERT then fails. *)
Definition created {R : Type} (t : option (table R)) : table R :=
  match t with Some t => t | None => {| rows := []; seq := 0 |} end.

Definition initialized (clock : nat -> timestamp) (db : database) : database :=
  let st := created (shared_state db) in
  {| journal_mode := WAL;
     shared_state :=
       Some (if Z.of_nat (List.length (rows st)) =? 0
             then appended sr_id st (default_row (clock 4%nat))
             else st);
     update_logs := Some (created (update_logs db)) |}.

Definition prepared (db : database) : database :=
  {| journal_mode := WAL;
     shared_state := Some (created (shared_state db));
     update_logs := Some (created (update_logs db)) |}.

(** ** Invariants of a connection *)

(** Both the file and the connection's view hold the log rows [L]. *)
Definition holds (L : list LogRow) (c : connection) : Prop :=
  log_rows (file c) = L /\ log_rows (view c) = L.

Definition keeps_logs {A : Type} (L : list LogRow) (m : M A) : Prop :=
  forall clock fault c r c',
    holds L c -> m clock fault c = (r, c') -> holds L c'.

(** The one row the INSERT of [update_state] adds. *)
Definition new_entry (clock : nat -> timestamp) (counter : option Z)
    (message : option string) (db : database) (lg : table LogRow) : LogRow :=
  log_record (clock 2%nat)
    (stored_counter db) (merged counter (stored_counter db))
    (stored_message db) (merged message (stored_message db))
    (label counter message) (largest_rowid lr_id lg + 1).

(** ** Concrete clocks and stores *)

Definition noon : nat -> timestamp := fun _ => "2024-01-01 12:00:00"%string.
Definition later : nat -> timestamp := fun _ => "2024-01-01 12:00:07"%string.

(** The store right after the first [init_db]. *)
Definition fresh_store : database :=
  {| journal_mode := WAL;
     shared_state := Some {| rows := [default_row (noon 4%nat) 1]; seq := 1 |};
     update_logs := Some {| rows := []; seq := 0 |} |}.

(** A store whose current state is [{counter: 5, message: "hi"}]. *)
Definition five_hi : database :=
  {| journal_mode := WAL;
     shared_state :=
       Some {| rows := [{| sr_id := 1; sr_counter := Some 5;
                           sr_message := Some "hi"%string;
                           sr_updated_at := noon 1%nat |}];
               seq := 1 |};
     update_logs := Some {| rows := []; seq := 0 |} |}.

(** [five_hi] after [update_state(counter=9)]. *)
Definition nine_hi : database :=
  Eval vm_compute in snd (update_state (Some 9) None noon None five_hi).

Definition nine_hi_result : UpdateResult :=
  {| ur_old_counter := Some 5; ur_new_counter := Some 9;
     ur_old_message := Some "hi"%string; ur_new_message := Some "hi"%string |}.

(** [fresh_store] after [update_state()] with no field. *)
Definition fresh_store_touched : database :=
  Eval vm_compute in snd (update_state None None later None fresh_store).

(** ** Sequences of calls *)

Inductive call : Type :=
| InitDb
| GetCurrentState
| UpdateState (counter : option Z) (message : option string)
| GetLogs (page limit : Z).

(** A call together with the clock it reads and the fault it meets. *)
Record invocation : Type := {
  inv_call : call;
  inv_clock : nat -> timestamp;
  inv_fault : option nat
}.

Definition succeeded {A : Type} (r : result A) : bool :=
  match r with Ok _ => true | Err _ => false end.

(** One call: whether it was an [update_state] that returned, and the store
    it leaves. *)
Definition invoke (i : invocation) (db : database) : bool * database :=
  match inv_call i with
  | InitDb => (false, snd (init_db (inv_clock i) (inv_fault i) db))
  | GetCurrentState =>
      (false, snd (get_current_state (inv_clock i) (inv_fault i) db))
  | UpdateState counter message =>
      let (r, db') := update_state counter message (inv_clock i) (inv_fault i) db in
      (succeeded r, db')
  | GetLogs page limit =>
      (false, snd (get_logs page limit (inv_clock i) (inv_fault i) db))
  end.

(** A sequence of calls: how many updates returned, and the final store. *)
Fixpoint invoke_all (calls : list invocation) (db : database) : nat * database :=
  match calls with
  | [] => (0%nat, db)
  | i :: rest =>
      let (ok, db1) := invoke i db in
      let (n, db2) := invoke_all rest db1 in
      ((if ok then S n else n), db2)
  end.

(** A store with [n] log rows. *)
Definition store_with_logs (n : nat) : database :=
  {| journal_mode := WAL;
     shared_state := shared_state fresh_store;
     update_logs :=
       Some {| rows :=
                 map (fun k => log_record (noon 2%nat)
                                 (Some (Z.of_nat k - 1)) (Some (Z.of_nat k))
                                 (Some ""%string) (Some ""%string)
                                 "counter" (Z.of_nat k))
                     (List.seq 1 n);
               seq := Z.of_nat n |} |}.

(** [nine_hi] after a later [update_state(message="x")]: two log rows. *)
Definition two_logs : database :=
  Eval vm_compute in snd (update_state None (Some "x"%string) later None nine_hi).

Definition newer_entry : LogEntry :=
  {| le_id := 2; le_timestamp := "2024-01-01 12:00:07";
     le_old_counter := Some 9; le_new_counter := Some 9;
     le_old_message := Some "hi"%string; le_new_message := Some "x"%string;
     le_update_type := "message" |}.

Definition older_entry : LogEntry :=
  {| le_id := 1; le_timestamp := "2024-01-01 12:00:00";
     le_old_counter := Some 5; le_new_counter := Some 9;
     le_old_message := Some "hi"%string; le_new_message := Some "hi"%string;
     le_update_type := "counter" |}.

Definition two_logs_page : LogsPage :=
  {| lp_logs := [newer_entry; older_entry]; lp_page := 1; lp_limit := 10;
     lp_total := 2; lp_total_pages := 1 |}.

(** The store after a run of consecutive [init_db] calls, one clock each. *)
Fixpoint init_db_repeatedly (clocks : list (nat -> timestamp)) (db : database)
    : database :=
  match clocks with
  | [] => db
  | clock :: rest => init_db_repeatedly rest (snd (init_db clock None db))
  end.

(** ** Vocabulary of the further properties *)

(** Hoare triples on connection computations: from a connection satisfying
    [P], whatever the clock and the fault, the outcome satisfies [Q]. *)
Definition hoare {A : Type} (P : connection -> Prop) (m : M A)
    (Q : result A -> connection -> Prop) : Prop :=
  forall clock fault c r c', P c -> m clock fault c = (r, c') -> Q r c'.

(** The state rows are the rows [S], or, when [S] is empty, the one default
    row that [init_db] inserts. *)
Definition same_or_seeded (S rs : list StateRow) : Prop :=
  rs = S \/ (S = [] /\ exists now i, rs = [default_row now i]).

(** What [init_db] keeps of a database, given the state rows [S] it started
    from and whether the table existed, and the same for a connection. *)
Definition init_ok (S : list StateRow) (had_table : Prop) (d : database) : Prop :=
  same_or_seeded S (state_rows d) /\ (had_table -> shared_state d <> None).

Definition init_inv (S : list StateRow) (had_table : Prop) (c : connection)
    : Prop :=
  init_ok S had_table (file c) /\ init_ok S had_table (view c).

(** The log rows form a chain from the state [s] to the state [e]: each
    row's old values are the values before it, its new values the values
    after it. *)
Fixpoint chain (s : option Z * option string) (l : list LogRow)
    (e : option Z * option string) : Prop :=
  match l with
  | [] => s = e
  | r :: l' =>
      (lr_old_counter r, lr_old_message r) = s /\
      chain (lr_new_counter r, lr_new_message r) l' e
  end.

(** The logs of page [p] (counted from 1) as [get_logs] returns them, none
    when it raises. *)
Definition page_logs (clock : nat -> timestamp) (db : database) (limit : Z)
    (p : nat) : list LogEntry :=
  match fst (get_logs (Z.of_nat p) limit clock None db) with
  | Ok r => lp_logs r
  | Err _ => []
  end.

(** * Properties *)

(** ** The order on timestamps *)

Section TimestampOrder.

Lemma ltb_leb_false (a b : string) :
  String.ltb a b = true -> String.leb b a = false.
Proof.
  unfold String.ltb, String.leb. rewrite (String.compare_antisym b a).
  destruct (String.compare a b); simpl; congruence.
Qed.

Lemma ltb_irrefl (a : string) : String.ltb a a = false.
Proof.
  unfold String.ltb.
  replace (String.compare a a) with Eq; [reflexivity|].
  symmetry. apply String_as_OT.cmp_eq. reflexivity.
Qed.

Lemma leb_false_leb (a b : string) :
  String.leb a b = false -> String.leb b a = true.
Proof.
  intros H. destruct (String.leb_total a b) as [E|E]; congruence.
Qed.

Lemma leb_trans (a b c : string) :
  String.leb a b = true -> String.leb b c = true -> String.leb a c = true.
Proof.
  unfold String.leb. intros Hab Hbc.
  destruct (String.compare a b) eqn:Eab; try discriminate;
    destruct (String.compare b c) eqn:Ebc; try discriminate.
  - apply String.compare_eq_iff in Eab. subst. now rewrite Ebc.
  - apply String.compare_eq_iff in Eab. subst. now rewrite Ebc.
  - apply String.compare_eq_iff in Ebc. subst. now rewrite Eab.
  - assert (L : String_as_OT.lt a c).
    { apply String_as_OT.lt_trans with b; apply String_as_OT.cmp_lt; assumption. }
    apply String_as_OT.cmp_lt in L. unfold String_as_OT.cmp in L. now rewrite L.
Qed.

End TimestampOrder.

(** ** Query fragments *)

Section Latest.

Lemma latest_none (rs : list StateRow) : latest rs = None <-> rs = [].
Proof.
  destruct rs as [|r rs]; simpl; [tauto|].
  split; [|discriminate].
  destruct (latest rs); [destruct (sr_id r <? sr_id s)|]; discriminate.
Qed.

Lemma latest_in (rs : list StateRow) (l : StateRow) :
  latest rs = Some l -> In l rs.
Proof.
  revert l. induction rs as [|r rs IH]; simpl; intros l H; [discriminate|].
  destruct (latest rs) as [r'|].
  - destruct (sr_id r <? sr_id r'); inversion H; subst; auto.
  - inversion H; auto.
Qed.

Lemma latest_max (rs : list StateRow) (l : StateRow) :
  latest rs = Some l -> forall r, In r rs -> sr_id r <= sr_id l.
Proof.
  revert l. induction rs as [|r0 rs IH]; simpl; intros l H r Hin; [tauto|].
  destruct (latest rs) as [r'|] eqn:E.
  - specialize (IH r' eq_refl).
    destruct (sr_id r0 <? sr_id r') eqn:C; inversion H; subst;
      destruct Hin as [->|Hin]; try (apply IH in Hin); lia.
  - apply latest_none in E. subst. inversion H; subst.
    destruct Hin as [->|[]]. lia.
Qed.

(** A change that keeps every id selects the same row as latest. *)
Lemma latest_map (f : StateRow -> StateRow) (rs : list StateRow) :
  (forall r, sr_id (f r) = sr_id r) ->
  latest (map f rs) = option_map f (latest rs).
Proof.
  intros Hid. induction rs as [|r rs IH]; simpl; [reflexivity|].
  rewrite IH. destruct (latest rs) as [r'|]; simpl; [|reflexivity].
  rewrite !Hid. destruct (sr_id r <? sr_id r'); reflexivity.
Qed.

Lemma latest_set_latest c m now rs :
  latest (set_latest c m now rs) =
  option_map (fun l => {| sr_id := sr_id l; sr_counter := c;
                          sr_message := m; sr_updated_at := now |})
             (latest rs).
Proof.
  unfold set_latest. destruct (latest rs) as [l|] eqn:E; simpl.
  - rewrite latest_map.
    + rewrite E. simpl. rewrite Z.eqb_refl. reflexivity.
    + intros r. destruct (sr_id r =? sr_id l); reflexivity.
  - assumption.
Qed.

Lemma set_latest_length c m now rs :
  List.length (set_latest c m now rs) = List.length rs.
Proof.
  unfold set_latest. destruct (latest rs); [apply length_map|reflexivity].
Qed.

End Latest.

Section OrderBy.

Lemma insert_desc_length r l :
  List.length (insert_desc r l) = S (List.length l).
Proof.
  induction l as [|x xs IH]; simpl; [reflexivity|].
  destruct (String.leb _ _); simpl; congruence.
Qed.

Lemma order_by_length rs :
  List.length (order_by_timestamp_desc rs) = List.length rs.
Proof.
  induction rs as [|r rs IH]; simpl; [reflexivity|].
  unfold order_by_timestamp_desc in *. simpl.
  rewrite insert_desc_length. congruence.
Qed.

Lemma insert_desc_perm r l : Permutation (r :: l) (insert_desc r l).
Proof.
  induction l as [|x xs IH]; simpl; [reflexivity|].
  destruct (String.leb _ _); [reflexivity|].
  rewrite perm_swap. now apply perm_skip.
Qed.

Lemma order_by_perm rs : Permutation rs (order_by_timestamp_desc rs).
Proof.
  induction rs as [|r rs IH]; simpl; [constructor|].
  unfold order_by_timestamp_desc in *. simpl.
  rewrite <- insert_desc_perm. now apply perm_skip.
Qed.

Lemma insert_desc_sorted r l :
  StronglySorted newest_first l -> StronglySorted newest_first (insert_desc r l).
Proof.
  induction 1 as [|x xs Hs IH Hx]; simpl.
  - repeat constructor.
  - destruct (String.leb (lr_timestamp x) (lr_timestamp r)) eqn:E.
    + constructor; [now constructor|].
      constructor; [exact E|].
      rewrite Forall_forall in *. intros y Hy. unfold newest_first in *.
      apply leb_trans with (lr_timestamp x); auto.
    + constructor; [assumption|].
      rewrite Forall_forall in *. intros y Hy.
      apply (Permutation_in _ (Permutation_sym (insert_desc_perm r xs))) in Hy.
      destruct Hy as [<-|Hy]; [|auto].
      unfold newest_first. now apply leb_false_leb.
Qed.

Lemma order_by_sorted rs :
  StronglySorted newest_first (order_by_timestamp_desc rs).
Proof.
  induction rs as [|r rs IH]; [constructor|].
  unfold order_by_timestamp_desc in *. simpl. now apply insert_desc_sorted.
Qed.

Lemma sorted_skipn {A} (R : A -> A -> Prop) n l :
  StronglySorted R l -> StronglySorted R (skipn n l).
Proof.
  revert l. induction n as [|n IH]; intros l H; simpl; [assumption|].
  destruct l; [constructor|]. apply IH. now inversion H.
Qed.

Lemma in_firstn {A} n (l : list A) y : In y (firstn n l) -> In y l.
Proof.
  revert l. induction n as [|n IH]; intros [|x l]; simpl; try tauto.
  intros [->|H]; auto.
Qed.

Lemma sorted_firstn {A} (R : A -> A -> Prop) n l :
  StronglySorted R l -> StronglySorted R (firstn n l).
Proof.
  revert l. induction n as [|n IH]; intros l H; simpl; [constructor|].
  destruct l as [|x l]; [constructor|].
  inversion H as [|? ? Hs Hx]; subst. constructor; [now apply IH|].
  rewrite Forall_forall in *. intros y Hy. apply Hx.
  revert Hy. apply in_firstn.
Qed.

Lemma limit_offset_sorted {A} (R : A -> A -> Prop) limit offset l :
  StronglySorted R l -> StronglySorted R (limit_offset limit offset l).
Proof.
  intros H. unfold limit_offset.
  destruct (limit <? 0); [|apply sorted_firstn]; now apply sorted_skipn.
Qed.

Lemma sorted_map {A B} (R : A -> A -> Prop) (S : B -> B -> Prop) (f : A -> B) l :
  (forall x y, R x y -> S (f x) (f y)) ->
  StronglySorted R l -> StronglySorted S (map f l).
Proof.
  intros HRS. induction 1 as [|x xs Hs IH Hx]; simpl; constructor; auto.
  rewrite Forall_forall in *. intros y Hy.
  apply in_map_iff in Hy as [z [<- Hz]]. auto.
Qed.

Lemma sorted_nth {A} (R : A -> A -> Prop) l :
  StronglySorted R l ->
  forall i j x y, (i < j)%nat ->
    nth_error l i = Some x -> nth_error l j = Some y -> R x y.
Proof.
  induction 1 as [|a l Hs IH Ha]; intros i j x y Hij Hi Hj.
  - destruct i; discriminate.
  - destruct j as [|j]; [lia|]. simpl in Hj. destruct i as [|i]; simpl in Hi.
    + inversion Hi; subst. rewrite Forall_forall in Ha. apply Ha.
      eapply nth_error_In; eassumption.
    + apply (IH i j); auto. lia.
Qed.

Lemma limit_offset_length {A} limit offset (l : list A) :
  0 <= limit -> 0 <= offset ->
  Z.of_nat (List.length (limit_offset limit offset l)) =
  Z.max 0 (Z.min limit (Z.of_nat (List.length l) - offset)).
Proof.
  intros Hl Ho. unfold limit_offset.
  destruct (limit <? 0) eqn:E; [lia|].
  rewrite length_firstn, length_skipn. lia.
Qed.

End OrderBy.

(** ** What a connection leaves in the file *)

Create HintDb quiet.

Section Frame.

Lemma quiet_ret {A} (a : A) : quiet (ret a).
Proof. intros clock fault c r c' H. inversion H. auto. Qed.

Lemma quiet_raise {A} e : quiet (@raise A e).
Proof. intros clock fault c r c' H. inversion H. auto. Qed.

Lemma quiet_bind {A B} (m : M A) (k : A -> M B) :
  quiet m -> (forall a, quiet (k a)) -> quiet (bind m k).
Proof.
  intros Hm Hk clock fault c r c' H. unfold bind in H.
  destruct (m clock fault c) as [[a|e] c1] eqn:E.
  - apply Hk in H. apply Hm in E. destruct H, E. split; [congruence|auto].
  - inversion H; subst. eapply Hm; eassumption.
Qed.

Lemma quiet_guarded {A} (m : M A) : quiet m -> guarded m.
Proof. intros Hm clock fault c r c' T H. apply Hm in H. tauto. Qed.

Lemma guarded_bind {A B} (m : M A) (k : A -> M B) :
  guarded m -> (forall a, guarded (k a)) -> guarded (bind m k).
Proof.
  intros Hm Hk clock fault c r c' T H. unfold bind in H.
  destruct (m clock fault c) as [[a|e] c1] eqn:E.
  - apply Hm in E; [|assumption]. destruct E as [F T1].
    apply Hk in H; [|assumption]. destruct H. split; [congruence|auto].
  - inversion H; subst. eapply Hm; eassumption.
Qed.

Lemma guarded_write f : guarded (write f).
Proof.
  intros clock fault c r c' T H. unfold write in H.
  destruct (txn c); [|congruence]. inversion H; simpl. split; congruence.
Qed.

(** An UPDATE or INSERT writes into the transaction [begin] opened. *)
Lemma quiet_begin {A} (k : M A) : guarded k -> quiet (begin ;; k).
Proof.
  intros Hk clock fault c r c' H. unfold bind, begin in H.
  destruct (txn c) eqn:T.
  - apply Hk in H; [|congruence]. tauto.
  - apply Hk in H; [|simpl; congruence]. simpl in H. tauto.
Qed.

Lemma quiet_atomic {A} (m : M A) : quiet m -> atomic m.
Proof. intros Hm clock fault c e c' H. eapply Hm; eassumption. Qed.

Lemma atomic_bind {A B} (m : M A) (k : A -> M B) :
  quiet m -> (forall a, atomic (k a)) -> atomic (bind m k).
Proof.
  intros Hm Hk clock fault c e c' H. unfold bind in H.
  destruct (m clock fault c) as [[a|e0] c1] eqn:E.
  - apply Hk in H. apply Hm in E. destruct E. congruence.
  - inversion H; subst. eapply Hm; eassumption.
Qed.

Lemma quiet_step : quiet step.
Proof.
  intros clock fault c r c' H. unfold step in H.
  destruct (hit fault (pc c)); inversion H; auto.
Qed.

Lemma quiet_read : quiet read.
Proof. intros clock fault c r c' H. inversion H. auto. Qed.

Lemma quiet_current_timestamp k : quiet (current_timestamp k).
Proof. intros clock fault c r c' H. inversion H. auto. Qed.

Lemma quiet_bind_int v : quiet (bind_int v).
Proof.
  unfold bind_int. destruct (bindable v); [apply quiet_ret|apply quiet_raise].
Qed.

Lemma quiet_floordiv a b : quiet (floordiv a b).
Proof.
  unfold floordiv. destruct (b =? 0); [apply quiet_raise|apply quiet_ret].
Qed.

Lemma quiet_no_such_table {A} name : quiet (@no_such_table A name).
Proof. apply quiet_raise. Qed.

Lemma guarded_database_full {A} : guarded (@database_full A).
Proof. apply quiet_guarded, quiet_raise. Qed.

#[local] Hint Resolve quiet_ret quiet_raise quiet_step quiet_read
  quiet_current_timestamp quiet_bind_int quiet_floordiv quiet_no_such_table
  guarded_write quiet_guarded : quiet.

Ltac quiet_seq := repeat (apply quiet_bind; [auto with quiet|intros ?]).
Ltac guarded_seq := repeat (apply guarded_bind; [auto with quiet|intros ?]).

Lemma quiet_select_latest_state : quiet select_latest_state.
Proof.
  unfold select_latest_state. quiet_seq.
  destruct (shared_state _); auto with quiet.
Qed.

Lemma quiet_count_update_logs : quiet count_update_logs.
Proof.
  unfold count_update_logs. quiet_seq.
  destruct (update_logs _); auto with quiet.
Qed.

Lemma quiet_select_logs_page limit offset : quiet (select_logs_page limit offset).
Proof.
  unfold select_logs_page. quiet_seq.
  destruct (update_logs _); auto with quiet. quiet_seq. auto with quiet.
Qed.

Lemma quiet_update_latest_state c m : quiet (update_latest_state c m).
Proof.
  unfold update_latest_state. quiet_seq.
  destruct (shared_state _); auto with quiet.
  apply quiet_begin. guarded_seq. auto with quiet.
Qed.

Lemma quiet_insert_log oc nc om nm ut : quiet (insert_log oc nc om nm ut).
Proof.
  unfold insert_log. quiet_seq.
  destruct (update_logs _); auto with quiet.
  apply quiet_begin. guarded_seq.
  destruct (append_row _ _ _); [apply guarded_write|apply guarded_database_full].
Qed.

(** [commit] either fails before anything is published or succeeds. *)
Lemma atomic_commit_ret {A} (a : A) : atomic (commit ;; ret a).
Proof.
  intros clock fault c e c' H. unfold commit, bind, step, ret in H.
  destruct (hit fault (pc c)); inversion H; reflexivity.
Qed.

Lemma connect_quiet {A} (body : M A) clock fault db :
  quiet body -> snd (connect body clock fault db) = db.
Proof.
  intros Hq. unfold connect.
  destruct (body clock fault _) as [r c] eqn:E. apply Hq in E. apply E.
Qed.

Lemma connect_atomic {A} (body : M A) clock fault db e db' :
  atomic body -> connect body clock fault db = (Err e, db') -> db' = db.
Proof.
  intros Ha. unfold connect.
  destruct (body clock fault _) as [r c] eqn:E. intros H. inversion H; subst.
  apply Ha in E. exact E.
Qed.

Lemma get_current_state_file clock fault db :
  snd (get_current_state clock fault db) = db.
Proof.
  apply connect_quiet.
  apply quiet_bind; [apply quiet_select_latest_state|].
  intros [r|]; apply quiet_ret.
Qed.

Lemma get_logs_file page limit clock fault db :
  snd (get_logs page limit clock fault db) = db.
Proof.
  apply connect_quiet.
  apply quiet_bind; [apply quiet_count_update_logs|]. intros total.
  apply quiet_bind; [destruct (total >? 0); auto with quiet|]. intros tp.
  apply quiet_bind; [apply quiet_select_logs_page|]. intros rs.
  apply quiet_ret.
Qed.

Lemma update_state_rollback counter message clock fault db e db' :
  update_state counter message clock fault db = (Err e, db') -> db' = db.
Proof.
  apply connect_atomic.
  apply atomic_bind; [apply quiet_select_latest_state|]. intros current.
  cbv zeta.
  apply atomic_bind; [apply quiet_update_latest_state|]. intros _.
  apply atomic_bind; [apply quiet_insert_log|]. intros _.
  apply atomic_commit_ret.
Qed.

End Frame.

(** ** What the calls compute *)

Section Runs.

Lemma run_select_latest_state clock fault c :
  select_latest_state clock fault c =
  if hit fault (pc c) then (io_error, c) else
  match shared_state (view c) with
  | None => (missing "shared_state", tick c)
  | Some t => (Ok (latest (rows t)), tick c)
  end.
Proof.
  unfold select_latest_state, bind, step, read, no_such_table, raise, ret.
  destruct (hit fault (pc c)); [reflexivity|].
  change (view (tick c)) with (view c).
  destruct (shared_state (view c)); reflexivity.
Qed.

Lemma run_update_latest_state nc nm clock fault c :
  update_latest_state nc nm clock fault c =
  if hit fault (pc c) then (io_error, c) else
  match shared_state (view c) with
  | None => (missing "shared_state", tick c)
  | Some t =>
      if bindable nc
      then (Ok tt,
            in_txn c (with_shared_state (view c)
                        {| rows := set_latest nc nm (clock (pc c)) (rows t);
                           seq := seq t |}))
      else (Err OverflowError, in_txn c (view c))
  end.
Proof.
  unfold update_latest_state, bind, step, read, begin, bind_int,
    current_timestamp, write, no_such_table, raise, ret.
  destruct (hit fault (pc c)); [reflexivity|].
  change (view (tick c)) with (view c).
  destruct (shared_state (view c)) as [t|] eqn:E; [|reflexivity].
  unfold view in *. destruct c as [f [d|] n]; simpl in *;
    destruct (bindable nc); simpl; rewrite ?E; reflexivity.
Qed.

Lemma run_insert_log oc nc om nm ut clock fault c :
  insert_log oc nc om nm ut clock fault c =
  if hit fault (pc c) then (io_error, c) else
  match update_logs (view c) with
  | None => (missing "update_logs", tick c)
  | Some t =>
      if bindable oc && bindable nc
      then if exhausted lr_id t
           then (full_error, in_txn c (view c))
           else (Ok tt,
                 in_txn c (with_update_logs (view c)
                             (appended lr_id t
                                (log_record (clock (pc c)) oc nc om nm ut))))
      else (Err OverflowError, in_txn c (view c))
  end.
Proof.
  unfold insert_log, bind, step, read, begin, bind_int,
    current_timestamp, write, no_such_table, database_full, raise, ret,
    append_row, next_rowid, appended, full_error.
  destruct (hit fault (pc c)); [reflexivity|].
  change (view (tick c)) with (view c).
  destruct (update_logs (view c)) as [t|] eqn:E; [|reflexivity].
  unfold view in *. destruct c as [f [d|] n]; simpl in *;
    destruct (bindable oc); destruct (bindable nc); simpl;
    destruct (exhausted lr_id t); reflexivity.
Qed.

Lemma run_commit clock fault c :
  commit clock fault c =
  if hit fault (pc c) then (io_error, c)
  else (Ok tt, {| file := view c; txn := None; pc := S (pc c) |}).
Proof.
  unfold commit, bind, step. destruct (hit fault (pc c)); reflexivity.
Qed.

Lemma run_bind {A B} (m : M A) (k : A -> M B) clock fault c :
  bind m k clock fault c =
  match m clock fault c with
  | (Ok a, c') => k a clock fault c'
  | (Err e, c') => (Err e, c')
  end.
Proof. reflexivity. Qed.

Ltac conn_simpl :=
  cbn [view tick in_txn txn file pc with_shared_state with_update_logs
       shared_state update_logs journal_mode fst snd].

Lemma update_state_run counter message clock fault db :
  update_state counter message clock fault db =
  if hit fault 0 then (io_error, db) else
  match shared_state db with
  | None => (missing "shared_state", db)
  | Some st =>
      if hit fault 1 then (io_error, db) else
      if negb (bindable (merged counter (stored_counter db)))
      then (Err OverflowError, db) else
      if hit fault 2 then (io_error, db) else
      match update_logs db with
      | None => (missing "update_logs", db)
      | Some lg =>
          if negb (bindable (stored_counter db)
                   && bindable (merged counter (stored_counter db)))
          then (Err OverflowError, db) else
          if exhausted lr_id lg then (full_error, db) else
          if hit fault 3 then (io_error, db) else
          (Ok (update_result counter message db),
           updated clock counter message db st lg)
      end
  end.
Proof.
  unfold update_state, connect, updated, update_result, label, merged,
    stored_counter, stored_message, state_rows.
  rewrite run_bind, run_select_latest_state. cbn [pc].
  destruct (hit fault 0); [reflexivity|]. conn_simpl.
  destruct (shared_state db) as [st|] eqn:Est; [|reflexivity].
  set (oc := match latest (rows st) with
             | Some r => sr_counter r | None => Some 0 end).
  set (nc := match counter with Some _ => counter | None => oc end).
  cbv zeta. rewrite run_bind, run_update_latest_state. conn_simpl. rewrite Est.
  destruct (hit fault 1); [reflexivity|].
  destruct (bindable nc) eqn:Bn; [|reflexivity]. cbn [negb].
  rewrite run_bind, run_insert_log. conn_simpl.
  destruct (hit fault 2); [reflexivity|].
  destruct (update_logs db) as [lg|] eqn:Elg; [|reflexivity].
  rewrite Bn.
  destruct (bindable oc) eqn:Bo; [|reflexivity]. cbn [negb andb].
  destruct (exhausted lr_id lg); [reflexivity|].
  rewrite run_bind, run_commit. conn_simpl.
  destruct (hit fault 3); reflexivity.
Qed.

Lemma run_count_update_logs clock fault c :
  count_update_logs clock fault c =
  if hit fault (pc c) then (io_error, c) else
  match update_logs (view c) with
  | None => (missing "update_logs", tick c)
  | Some t => (Ok (Z.of_nat (List.length (rows t))), tick c)
  end.
Proof.
  unfold count_update_logs, bind, step, read, no_such_table, raise, ret.
  destruct (hit fault (pc c)); [reflexivity|].
  change (view (tick c)) with (view c).
  destruct (update_logs (view c)); reflexivity.
Qed.

Lemma run_select_logs_page limit offset clock fault c :
  select_logs_page limit offset clock fault c =
  if hit fault (pc c) then (io_error, c) else
  match update_logs (view c) with
  | None => (missing "update_logs", tick c)
  | Some t =>
      if in_int64 limit && in_int64 offset
      then (Ok (limit_offset limit offset (order_by_timestamp_desc (rows t))),
            tick c)
      else (Err OverflowError, tick c)
  end.
Proof.
  unfold select_logs_page, bind, step, read, bind_int, no_such_table, raise,
    ret, bindable.
  destruct (hit fault (pc c)); [reflexivity|].
  change (view (tick c)) with (view c).
  destruct (update_logs (view c)); [|reflexivity].
  destruct (in_int64 limit), (in_int64 offset); reflexivity.
Qed.

Lemma get_current_state_run clock fault db :
  get_current_state clock fault db =
  if hit fault 0 then (io_error, db) else
  match shared_state db with
  | None => (missing "shared_state", db)
  | Some _ =>
      (Ok {| st_counter := stored_counter db;
             st_message := stored_message db |}, db)
  end.
Proof.
  unfold get_current_state, connect, stored_counter, stored_message,
    state_rows.
  rewrite run_bind, run_select_latest_state. conn_simpl.
  destruct (hit fault 0); [reflexivity|].
  destruct (shared_state db) as [st|]; [|reflexivity].
  destruct (latest (rows st)); reflexivity.
Qed.

Lemma get_logs_run page limit clock fault db :
  get_logs page limit clock fault db =
  if hit fault 0 then (io_error, db) else
  match update_logs db with
  | None => (missing "update_logs", db)
  | Some t =>
      if (Z.of_nat (List.length (rows t)) >? 0) && (limit =? 0)
      then (Err ZeroDivisionError, db) else
      if hit fault 1 then (io_error, db) else
      if in_int64 limit && in_int64 ((page - 1) * limit)
      then (Ok (logs_page page limit (rows t)), db)
      else (Err OverflowError, db)
  end.
Proof.
  unfold get_logs, connect, logs_page.
  rewrite run_bind, run_count_update_logs. conn_simpl.
  destruct (hit fault 0); [reflexivity|].
  destruct (update_logs db) as [t|] eqn:Et; [|reflexivity].
  cbv zeta. rewrite run_bind.
  set (total := Z.of_nat (List.length (rows t))).
  destruct (total >? 0) eqn:Ht; cbn [andb].
  - unfold floordiv. destruct (limit =? 0); [reflexivity|].
    unfold ret at 1. rewrite run_bind, run_select_logs_page. conn_simpl.
    rewrite Et. destruct (hit fault 1); [reflexivity|].
    destruct (in_int64 limit && in_int64 _); reflexivity.
  - unfold ret at 1. rewrite run_bind, run_select_logs_page. conn_simpl.
    rewrite Et. destruct (hit fault 1); [reflexivity|].
    destruct (in_int64 limit && in_int64 _); reflexivity.
Qed.

Lemma init_db_run clock db :
  init_db clock None db =
  let st := created (shared_state db) in
  if (Z.of_nat (List.length (rows st)) =? 0) && exhausted sr_id st
  then (full_error, prepared db)
  else (Ok tt, initialized clock db).
Proof.
  destruct db as [jm [[[|r rs] sq]|] [lg|]]; try reflexivity.
  all: unfold init_db, connect, initialized, prepared, full_error;
    cbn -[exhausted largest_rowid next_rowid];
    unfold insert_default_state, append_row, next_rowid, appended, bind, step,
      read, begin, current_timestamp, write, database_full, raise, ret, hit;
    cbn -[exhausted largest_rowid];
    destruct (exhausted sr_id {| rows := []; seq := sq |}); reflexivity.
Qed.

End Runs.

(** ** Initialisation never touches the log rows, whatever fails *)

Section LogsKept.

Variable L : list LogRow.

Lemma keeps_ret {A} (a : A) : keeps_logs L (ret a).
Proof. intros clock fault c r c' Hc H. inversion H; subst. exact Hc. Qed.

Lemma keeps_raise {A} e : keeps_logs L (@raise A e).
Proof. intros clock fault c r c' Hc H. inversion H; subst. exact Hc. Qed.

Lemma keeps_bind {A B} (m : M A) (k : A -> M B) :
  keeps_logs L m -> (forall a, keeps_logs L (k a)) -> keeps_logs L (bind m k).
Proof.
  intros Hm Hk clock fault c r c' Hc H. unfold bind in H.
  destruct (m clock fault c) as [[a|e] c1] eqn:E.
  - eapply Hk; [|eassumption]. eapply Hm; eassumption.
  - inversion H; subst. eapply Hm; eassumption.
Qed.

Lemma keeps_step : keeps_logs L step.
Proof.
  intros clock fault c r c' Hc H. unfold step in H.
  destruct (hit fault (pc c)); inversion H; subst; exact Hc.
Qed.

Lemma keeps_read : keeps_logs L read.
Proof. intros clock fault c r c' Hc H. inversion H; subst. exact Hc. Qed.

Lemma keeps_current_timestamp k : keeps_logs L (current_timestamp k).
Proof. intros clock fault c r c' Hc H. inversion H; subst. exact Hc. Qed.

Lemma keeps_begin : keeps_logs L begin.
Proof.
  intros clock fault c r c' [Hf Hv] H. unfold begin in H.
  destruct (txn c) eqn:T; inversion H; subst; split; auto.
Qed.

Lemma keeps_write f :
  (forall d, log_rows (f d) = log_rows d) -> keeps_logs L (write f).
Proof.
  intros Hf clock fault c r c' [Hc Hv] H. unfold write in H. unfold view in Hv.
  destruct (txn c) eqn:T; inversion H; subst; unfold holds, view; simpl;
    rewrite ?Hf; auto.
Qed.

Lemma keeps_commit : keeps_logs L commit.
Proof.
  apply keeps_bind; [apply keeps_step|]. intros _ clock fault c r c' [Hc Hv] H.
  inversion H; subst. split; assumption.
Qed.

Lemma keeps_pragma_journal_mode_wal : keeps_logs L pragma_journal_mode_wal.
Proof.
  apply keeps_bind; [apply keeps_step|]. intros _ clock fault c r c' [Hc Hv] H.
  unfold view in Hv.
  destruct (txn c) eqn:T; inversion H; subst; unfold holds, view; simpl;
    rewrite ?T; auto.
Qed.

Lemma keeps_create_shared_state : keeps_logs L create_shared_state.
Proof.
  apply keeps_bind; [apply keeps_step|]. intros _. apply keeps_write.
  intros d. destruct (shared_state d); reflexivity.
Qed.

Lemma keeps_create_update_logs : keeps_logs L create_update_logs.
Proof.
  apply keeps_bind; [apply keeps_step|]. intros _. apply keeps_write.
  intros d. unfold log_rows. destruct (update_logs d) eqn:E; simpl;
    rewrite ?E; reflexivity.
Qed.

Lemma keeps_count_shared_state : keeps_logs L count_shared_state.
Proof.
  apply keeps_bind; [apply keeps_step|]. intros _.
  apply keeps_bind; [apply keeps_read|]. intros d.
  destruct (shared_state d); [apply keeps_ret|apply keeps_raise].
Qed.

Lemma keeps_insert_default_state : keeps_logs L insert_default_state.
Proof.
  apply keeps_bind; [apply keeps_step|]. intros k.
  apply keeps_bind; [apply keeps_read|]. intros d.
  destruct (shared_state d); [|apply keeps_raise].
  apply keeps_bind; [apply keeps_begin|]. intros _.
  apply keeps_bind; [apply keeps_current_timestamp|]. intros now.
  destruct (append_row _ _ _); [|apply keeps_raise].
  apply keeps_write. intros d'. reflexivity.
Qed.

Lemma keeps_init_db_body :
  keeps_logs L (pragma_journal_mode_wal ;;
         create_shared_state ;;
         create_update_logs ;;
         n <- count_shared_state ;;
         (if n =? 0 then insert_default_state else ret tt) ;;
         commit).
Proof.
  apply keeps_bind; [apply keeps_pragma_journal_mode_wal|]. intros _.
  apply keeps_bind; [apply keeps_create_shared_state|]. intros _.
  apply keeps_bind; [apply keeps_create_update_logs|]. intros _.
  apply keeps_bind; [apply keeps_count_shared_state|]. intros n.
  apply keeps_bind; [|intros _; apply keeps_commit].
  destruct (n =? 0); [apply keeps_insert_default_state|apply keeps_ret].
Qed.

End LogsKept.

Lemma init_db_log_rows clock fault db :
  log_rows (snd (init_db clock fault db)) = log_rows db.
Proof.
  unfold init_db, connect.
  match goal with
  | |- context [let '(_, _) := ?run in _] => destruct run as [r c] eqn:E
  end.
  apply (keeps_init_db_body (log_rows db)) in E; [apply E|].
  split; reflexivity.
Qed.

(** ** What a successful [update_state] leaves behind *)

Section Updated.

Lemma update_state_ok_inv counter message clock fault db res db' :
  update_state counter message clock fault db = (Ok res, db') ->
  exists st lg,
    shared_state db = Some st /\ update_logs db = Some lg /\
    res = update_result counter message db /\
    db' = updated clock counter message db st lg.
Proof.
  rewrite update_state_run. unfold io_error, missing.
  destruct (hit fault 0); [discriminate|].
  destruct (shared_state db) as [st|]; [|discriminate].
  destruct (hit fault 1); [discriminate|].
  destruct (negb _); [discriminate|].
  destruct (hit fault 2); [discriminate|].
  destruct (update_logs db) as [lg|]; [|discriminate].
  destruct (negb _); [discriminate|].
  destruct (exhausted lr_id lg); [discriminate|].
  destruct (hit fault 3); [discriminate|].
  intros H. inversion H. exists st, lg. auto.
Qed.

Lemma update_state_ok counter message clock db st lg :
  shared_state db = Some st -> update_logs db = Some lg ->
  bindable (stored_counter db) = true ->
  bindable (merged counter (stored_counter db)) = true ->
  exhausted lr_id lg = false ->
  update_state counter message clock None db =
  (Ok (update_result counter message db),
   updated clock counter message db st lg).
Proof.
  intros Hst Hlg Bo Bn Hfree. rewrite update_state_run. cbn [hit].
  rewrite Hst, Hlg, Bo, Bn, Hfree. reflexivity.
Qed.

Lemma updated_log_rows clock counter message db st lg :
  update_logs db = Some lg ->
  log_rows (updated clock counter message db st lg) =
  (log_rows db ++ [new_entry clock counter message db lg])%list.
Proof. intros H. unfold log_rows. rewrite H. reflexivity. Qed.

Lemma updated_latest clock counter message db st lg :
  shared_state db = Some st ->
  latest (state_rows (updated clock counter message db st lg)) =
  option_map (fun l => {| sr_id := sr_id l;
                          sr_counter := merged counter (stored_counter db);
                          sr_message := merged message (stored_message db);
                          sr_updated_at := clock 1%nat |})
             (latest (state_rows db)).
Proof.
  intros H. unfold state_rows. rewrite H. cbn [updated shared_state rows].
  apply latest_set_latest.
Qed.

(** With a row in the table the state read back is the merged state;
    without one the UPDATE matches nothing and the defaults are read. *)
Lemma updated_stored_counter clock counter message db st lg :
  shared_state db = Some st ->
  stored_counter (updated clock counter message db st lg) =
  match latest (state_rows db) with
  | Some _ => merged counter (stored_counter db)
  | None => Some 0
  end.
Proof.
  intros H. unfold stored_counter at 1. rewrite (updated_latest _ _ _ _ _ _ H).
  destruct (latest (state_rows db)); reflexivity.
Qed.

Lemma updated_stored_message clock counter message db st lg :
  shared_state db = Some st ->
  stored_message (updated clock counter message db st lg) =
  match latest (state_rows db) with
  | Some _ => merged message (stored_message db)
  | None => Some ""%string
  end.
Proof.
  intros H. unfold stored_message at 1. rewrite (updated_latest _ _ _ _ _ _ H).
  destruct (latest (state_rows db)); reflexivity.
Qed.

Lemma label_cases counter message :
  label counter message =
  match counter, message with
  | Some _, Some _ => "counter, message"
  | Some _, None => "counter"
  | None, Some _ => "message"
  | None, None => ""
  end%string.
Proof. destruct counter, message; reflexivity. Qed.

End Updated.

(** * The claims *)

(** ** Reading the state *)

(** C7: [get_current_state] returns the counter and message of the row with
    the largest id; on a [shared_state] table without rows it returns the
    default [{counter: 0, message: ""}] and does not raise. *)
Theorem get_current_state_latest_or_default clock db st :
  shared_state db = Some st ->
  exists s,
    get_current_state clock None db = (Ok s, db) /\
    match rows st with
    | [] => s = {| st_counter := Some 0; st_message := Some ""%string |}
    | _ :: _ =>
        exists r, In r (rows st) /\
                  (forall r', In r' (rows st) -> sr_id r' <= sr_id r) /\
                  s = {| st_counter := sr_counter r; st_message := sr_message r |}
    end.
Proof.
  intros Hst. rewrite get_current_state_run. cbn [hit]. rewrite Hst.
  eexists; split; [reflexivity|].
  unfold stored_counter, stored_message, state_rows. rewrite Hst.
  destruct (rows st) as [|r0 rs] eqn:Hrows; [reflexivity|].
  destruct (latest (r0 :: rs)) as [r|] eqn:Hl.
  - exists r. split; [now apply latest_in|]. split; [now apply latest_max|].
    reflexivity.
  - apply latest_none in Hl. discriminate.
Qed.

Lemma get_current_state_latest_or_default_witness :
  shared_state five_hi <> None /\
  get_current_state noon None five_hi =
    (Ok {| st_counter := Some 5; st_message := Some "hi"%string |}, five_hi) /\
  get_current_state noon None
    {| journal_mode := WAL; shared_state := Some {| rows := []; seq := 0 |};
       update_logs := None |} =
    (Ok {| st_counter := Some 0; st_message := Some ""%string |},
     {| journal_mode := WAL; shared_state := Some {| rows := []; seq := 0 |};
        update_logs := None |}).
Proof.
  split; [discriminate|]. split.
  - destruct (get_current_state_latest_or_default noon five_hi _ eq_refl)
      as [s [Hrun _]].
    rewrite Hrun. vm_compute in Hrun. inversion Hrun. reflexivity.
  - destruct (get_current_state_latest_or_default noon
                {| journal_mode := WAL;
                   shared_state := Some {| rows := []; seq := 0 |};
                   update_logs := None |} _ eq_refl) as [s [Hrun Hs]].
    simpl in Hs. rewrite Hrun, Hs. reflexivity.
Defined.

(** C10: neither [get_current_state] nor [get_logs] changes the store: for
    every store, clock, injected fault and arguments, the file after the call
    is the file before it, with both tables as they were. *)
Theorem reads_leave_store_unchanged clock fault page limit db :
  snd (get_current_state clock fault db) = db /\
  snd (get_logs page limit clock fault db) = db.
Proof.
  split; [apply get_current_state_file|apply get_logs_file].
Qed.

(** ** Updating the state *)

(** C1: from a store with a current state row, a successful [update_state]
    with at least one of counter and message present leaves as current state
    the requested value of each present field and the old value of each
    absent one; it appends one log row holding both fields before and after
    (equal for an absent field) and the update type ["counter"], ["message"]
    or ["counter, message"] according to the fields present; and it returns
    the same four values. *)
Theorem update_state_coalesce clock clock' db counter message row res db' :
  latest (state_rows db) = Some row ->
  counter <> None \/ message <> None ->
  update_state counter message clock None db = (Ok res, db') ->
  let new_counter :=
    match counter with Some v => Some v | None => sr_counter row end in
  let new_message :=
    match message with Some v => Some v | None => sr_message row end in
  get_current_state clock' None db' =
    (Ok {| st_counter := new_counter; st_message := new_message |}, db') /\
  (exists entry,
      log_rows db' = (log_rows db ++ [entry])%list /\
      lr_old_counter entry = sr_counter row /\
      lr_new_counter entry = new_counter /\
      lr_old_message entry = sr_message row /\
      lr_new_message entry = new_message /\
      (counter = None -> lr_new_counter entry = lr_old_counter entry) /\
      (message = None -> lr_new_message entry = lr_old_message entry) /\
      lr_update_type entry =
        match counter, message with
        | Some _, Some _ => "counter, message"
        | Some _, None => "counter"
        | None, _ => "message"
        end%string) /\
  res = {| ur_old_counter := sr_counter row; ur_new_counter := new_counter;
           ur_old_message := sr_message row; ur_new_message := new_message |}.
Proof.
  intros Hrow Hpresent Hrun new_counter new_message.
  apply update_state_ok_inv in Hrun as (st & lg & Hst & Hlg & -> & ->).
  assert (Hc : stored_counter db = sr_counter row)
    by (unfold stored_counter; now rewrite Hrow).
  assert (Hm : stored_message db = sr_message row)
    by (unfold stored_message; now rewrite Hrow).
  assert (Hnc : merged counter (sr_counter row) = new_counter)
    by (destruct counter; reflexivity).
  assert (Hnm : merged message (sr_message row) = new_message)
    by (destruct message; reflexivity).
  split; [|split].
  - rewrite get_current_state_run. cbn [hit].
    cbn [updated shared_state].
    fold (updated clock counter message db st lg).
    rewrite updated_stored_counter, updated_stored_message by assumption.
    rewrite Hrow, Hc, Hm, Hnc, Hnm. reflexivity.
  - exists (new_entry clock counter message db lg).
    split; [now apply updated_log_rows|].
    unfold new_entry, log_record. cbn [lr_old_counter lr_new_counter
      lr_old_message lr_new_message lr_update_type].
    rewrite Hc, Hm, Hnc, Hnm, label_cases.
    repeat split; try (intros ->; reflexivity).
    destruct counter, message; try reflexivity. destruct Hpresent; congruence.
  - unfold update_result. rewrite Hc, Hm, Hnc, Hnm. reflexivity.
Qed.

Lemma update_state_coalesce_witness :
  latest (state_rows five_hi) <> None /\
  (Some 9 <> None \/ @None string <> None) /\
  update_state (Some 9) None noon None five_hi = (Ok nine_hi_result, nine_hi) /\
  get_current_state later None nine_hi =
    (Ok {| st_counter := Some 9; st_message := Some "hi"%string |}, nine_hi) /\
  map lr_update_type (log_rows nine_hi) = ["counter"%string].
Proof.
  (split; [discriminate|]). (split; [left; discriminate|]).
  assert (Hrun : update_state (Some 9) None noon None five_hi =
                 (Ok nine_hi_result, nine_hi)) by (vm_compute; reflexivity).
  (split; [exact Hrun|]).
  assert (Hrow : latest (state_rows five_hi) =
                 Some {| sr_id := 1; sr_counter := Some 5;
                         sr_message := Some "hi"%string;
                         sr_updated_at := noon 1%nat |}) by reflexivity.
  assert (Hp : Some 9 <> None \/ @None string <> None) by (left; discriminate).
  pose proof (update_state_coalesce noon later five_hi (Some 9) None _
                     nine_hi_result nine_hi Hrow Hp Hrun) as H.
  destruct H as (Hget & (entry & Hlog & _ & _ & _ & _ & _ & _ & Hty) & _).
  split; [exact Hget|].
  rewrite Hlog. rewrite map_app. cbn [map log_rows five_hi update_logs rows app]. rewrite Hty. reflexivity.
Defined.

(** C9: with both counter and message absent, [update_state] on a store with
    both tables (whose log table has a rowid left) still goes through: the
    state read back afterwards is the state read before, one log row is
    appended whose update type is the empty string (none of the three
    documented labels) and whose new values equal its old ones, and the
    returned old and new values coincide. *)
Theorem update_state_without_fields clock clock' db st lg :
  shared_state db = Some st ->
  update_logs db = Some lg ->
  bindable (stored_counter db) = true ->
  exhausted lr_id lg = false ->
  exists res db' entry,
    update_state None None clock None db = (Ok res, db') /\
    fst (get_current_state clock' None db') =
      fst (get_current_state clock' None db) /\
    log_rows db' = (log_rows db ++ [entry])%list /\
    lr_update_type entry = ""%string /\
    lr_update_type entry <> "counter"%string /\
    lr_update_type entry <> "message"%string /\
    lr_update_type entry <> "counter, message"%string /\
    lr_new_counter entry = lr_old_counter entry /\
    lr_new_message entry = lr_old_message entry /\
    ur_new_counter res = ur_old_counter res /\
    ur_new_message res = ur_old_message res.
Proof.
  intros Hst Hlg Hb Hfree.
  exists (update_result None None db), (updated clock None None db st lg),
    (new_entry clock None None db lg).
  split; [now apply update_state_ok|].
  split.
  - rewrite !get_current_state_run. cbn [hit].
    cbn [updated shared_state]. fold (updated clock None None db st lg).
    rewrite Hst, updated_stored_counter, updated_stored_message by assumption.
    unfold stored_counter, stored_message.
    destruct (latest (state_rows db)); reflexivity.
  - split; [now apply updated_log_rows|].
    cbn. repeat split; discriminate.
Qed.

Lemma update_state_without_fields_witness :
  shared_state fresh_store <> None /\
  update_logs fresh_store <> None /\
  bindable (stored_counter fresh_store) = true /\
  exhausted lr_id {| rows := []; seq := 0 |} = false /\
  update_state None None later None fresh_store =
    (Ok {| ur_old_counter := Some 0; ur_new_counter := Some 0;
           ur_old_message := Some ""%string; ur_new_message := Some ""%string |},
     fresh_store_touched) /\
  map lr_update_type (log_rows fresh_store_touched) = [""%string].
Proof.
  assert (Hfree : exhausted lr_id {| rows := @nil LogRow; seq := 0 |} = false)
    by reflexivity.
  split; [discriminate|]. split; [discriminate|]. split; [reflexivity|].
  split; [exact Hfree|].
  assert (Hst : shared_state fresh_store =
                Some {| rows := [default_row (noon 4%nat) 1]; seq := 1 |})
    by reflexivity.
  assert (Hlg : update_logs fresh_store = Some {| rows := []; seq := 0 |})
    by reflexivity.
  assert (Hb : bindable (stored_counter fresh_store) = true) by reflexivity.
  pose proof (update_state_without_fields later noon fresh_store _ _ Hst Hlg Hb
                Hfree)
    as (res & db' & entry & Hrun & _ & Hlog & Hty & _).
  assert (Hrun' : update_state None None later None fresh_store =
                  (Ok {| ur_old_counter := Some 0; ur_new_counter := Some 0;
                         ur_old_message := Some ""%string;
                         ur_new_message := Some ""%string |},
                   fresh_store_touched)) by (vm_compute; reflexivity).
  split; [exact Hrun'|].
  rewrite Hrun in Hrun'. inversion Hrun'; subst db'.
  rewrite Hlog, map_app. cbn [map log_rows fresh_store update_logs rows app].
  rewrite Hty. reflexivity.
Defined.

(** A fault on the INSERT, after the UPDATE has run: the call raises and the
    file is the one it started from. *)
Lemma fault_on_insert_rolls_back counter message clock db st :
  shared_state db = Some st ->
  bindable (merged counter (stored_counter db)) = true ->
  update_state counter message clock (Some 2%nat) db = (io_error, db).
Proof.
  intros Hst Hb. rewrite update_state_run. cbn [hit Nat.eqb].
  rewrite Hst, Hb. reflexivity.
Qed.


(** ** The log only grows *)

Lemma get_logs_total page limit clock fault db r db' :
  get_logs page limit clock fault db = (Ok r, db') ->
  lp_total r = Z.of_nat (List.length (log_rows db)).
Proof.
  rewrite get_logs_run. unfold io_error, missing, log_rows.
  destruct (hit fault 0); [discriminate|].
  destruct (update_logs db) as [t|]; [|discriminate].
  destruct (_ && _); [discriminate|].
  destruct (hit fault 1); [discriminate|].
  destruct (_ && _); [|discriminate].
  intros H. inversion H. reflexivity.
Qed.

Lemma invoke_log_rows i db :
  exists added,
    log_rows (snd (invoke i db)) = (log_rows db ++ added)%list /\
    List.length added = (if fst (invoke i db) then 1 else 0)%nat.
Proof.
  unfold invoke. destruct (inv_call i) as [| |counter message|page limit].
  - exists []. cbn [fst snd]. rewrite init_db_log_rows, app_nil_r. auto.
  - exists []. cbn [fst snd]. rewrite get_current_state_file, app_nil_r. auto.
  - destruct (update_state _ _ _ _ _) as [[res|e] db'] eqn:Hrun; cbn [fst snd succeeded].
    + apply update_state_ok_inv in Hrun as (st & lg & Hst & Hlg & -> & ->).
      eexists. split; [now apply updated_log_rows|reflexivity].
    + apply update_state_rollback in Hrun. subst. exists [].
      rewrite app_nil_r. auto.
  - exists []. cbn [fst snd]. rewrite get_logs_file, app_nil_r. auto.
Qed.

(** C3: every [update_state] that returns appends exactly one log row,
    whatever the requested values are (a value equal to the current one
    included); along any sequence of calls of the four functions, with any
    faults, the rows that were in the log stay in place unchanged and the
    rows added are as many as the updates that returned, so the total that
    [get_logs] reports grows by exactly that number. *)
Theorem log_grows_by_successful_updates :
  (forall counter message clock fault db res db',
      update_state counter message clock fault db = (Ok res, db') ->
      exists entry, log_rows db' = (log_rows db ++ [entry])%list) /\
  (forall calls db,
      exists added,
        log_rows (snd (invoke_all calls db)) = (log_rows db ++ added)%list /\
        List.length added = fst (invoke_all calls db) /\
        forall page limit clock page' limit' clock' before after,
          get_logs page limit clock None db = (Ok before, db) ->
          get_logs page' limit' clock' None (snd (invoke_all calls db)) =
            (Ok after, snd (invoke_all calls db)) ->
          lp_total after = lp_total before + Z.of_nat (fst (invoke_all calls db))).
Proof.
  split.
  - intros counter message clock fault db res db' Hrun.
    apply update_state_ok_inv in Hrun as (st & lg & Hst & Hlg & -> & ->).
    eexists. now apply updated_log_rows.
  - assert (Hrows : forall calls db, exists added,
               log_rows (snd (invoke_all calls db)) = (log_rows db ++ added)%list /\
               List.length added = fst (invoke_all calls db)).
    { induction calls as [|i calls IH]; intros db.
      - exists []. simpl. rewrite app_nil_r. auto.
      - simpl. destruct (invoke_log_rows i db) as (a1 & H1 & L1).
        destruct (invoke i db) as [ok db1]. cbn [fst snd] in *.
        destruct (IH db1) as (a2 & H2 & L2).
        destruct (invoke_all calls db1) as [n db2]. cbn [fst snd] in *.
        exists (a1 ++ a2)%list. rewrite H2, H1, app_assoc. split; [reflexivity|].
        rewrite length_app, L1, L2. destruct ok; reflexivity. }
    intros calls db. destruct (Hrows calls db) as (added & Hlog & Hlen).
    exists added. split; [assumption|]. split; [assumption|].
    intros page limit clock page' limit' clock' before after Hb Ha.
    apply get_logs_total in Hb, Ha. rewrite Ha, Hb, Hlog, length_app, <- Hlen.
    lia.
Qed.

Lemma log_grows_by_successful_updates_witness :
  let calls :=
    [ {| inv_call := UpdateState (Some 0) None; inv_clock := noon; inv_fault := None |};
      {| inv_call := GetLogs 1 10; inv_clock := noon; inv_fault := None |};
      {| inv_call := UpdateState (Some 3) None; inv_clock := noon;
         inv_fault := Some 2%nat |};
      {| inv_call := InitDb; inv_clock := later; inv_fault := None |};
      {| inv_call := UpdateState None (Some "x"%string); inv_clock := later;
         inv_fault := None |} ] in
  fst (invoke_all calls fresh_store) = 2%nat /\
  List.length (log_rows (snd (invoke_all calls fresh_store))) = 2%nat.
Proof.
  intros calls.
  destruct (proj2 log_grows_by_successful_updates calls fresh_store)
    as (added & Hlog & Hlen & _).
  assert (Hn : fst (invoke_all calls fresh_store) = 2%nat) by (vm_compute; reflexivity).
  split; [exact Hn|].
  rewrite Hlog, length_app, Hlen, Hn. reflexivity.
Defined.

(** ** Paging through the log *)

Lemma ceil_div total limit :
  0 < total -> 0 < limit ->
  limit * ((total + limit - 1) / limit - 1) < total <=
  limit * ((total + limit - 1) / limit).
Proof.
  intros Ht Hl.
  pose proof (Z.div_mod (total + limit - 1) limit ltac:(lia)) as Hd.
  pose proof (Z.mod_pos_bound (total + limit - 1) limit Hl) as Hm.
  lia.
Qed.

Lemma get_logs_ok page limit clock db lg :
  update_logs db = Some lg ->
  1 <= limit <= 100 ->
  min_int64 <= (page - 1) * limit <= max_int64 ->
  get_logs page limit clock None db = (Ok (logs_page page limit (rows lg)), db).
Proof.
  intros Hlg Hl Ho. rewrite get_logs_run. cbn [hit]. rewrite Hlg.
  replace (limit =? 0) with false by (symmetry; apply Z.eqb_neq; lia).
  rewrite andb_false_r.
  replace (in_int64 limit) with true.
  2:{ symmetry. unfold in_int64, min_int64, max_int64.
      apply andb_true_iff. split; apply Z.leb_le; lia. }
  replace (in_int64 ((page - 1) * limit)) with true.
  2:{ symmetry. unfold in_int64.
      apply andb_true_iff. split; apply Z.leb_le; lia. }
  reflexivity.
Qed.

(** Past the 64-bit range the offset cannot be bound and the call raises. *)
Lemma get_logs_offset_overflow page limit clock db lg :
  update_logs db = Some lg ->
  1 <= limit <= 100 ->
  max_int64 < (page - 1) * limit ->
  get_logs page limit clock None db = (Err OverflowError, db).
Proof.
  intros Hlg Hl Ho. rewrite get_logs_run. cbn [hit]. rewrite Hlg.
  replace (limit =? 0) with false by (symmetry; apply Z.eqb_neq; lia).
  rewrite andb_false_r.
  replace (in_int64 ((page - 1) * limit)) with false.
  2:{ symmetry. unfold in_int64. apply andb_false_iff. right.
      apply Z.leb_gt. assumption. }
  rewrite andb_false_r. reflexivity.
Qed.

(** C4, amended: on a store with its log table, for every page >= 1 and limit
    in [1,100] whose offset (page - 1) * limit fits SQLite's 64-bit INTEGER,
    [get_logs] returns the rows from that offset on, at most limit of them,
    reports as total the number of log rows, and as total_pages the ceiling
    of total / limit when total > 0 and 1 when there is no row (then with an
    empty list of logs). *)
Theorem get_logs_window page limit clock db lg :
  update_logs db = Some lg ->
  1 <= page ->
  1 <= limit <= 100 ->
  (page - 1) * limit <= max_int64 ->
  exists r,
    get_logs page limit clock None db = (Ok r, db) /\
    lp_logs r =
      map entry_of_row
          (firstn (Z.to_nat limit)
             (skipn (Z.to_nat ((page - 1) * limit))
                (order_by_timestamp_desc (rows lg)))) /\
    lp_total r = Z.of_nat (List.length (rows lg)) /\
    (0 < lp_total r ->
     limit * (lp_total_pages r - 1) < lp_total r <= limit * lp_total_pages r) /\
    (lp_total r = 0 -> lp_total_pages r = 1 /\ lp_logs r = []).
Proof.
  intros Hlg Hp Hl Ho. exists (logs_page page limit (rows lg)).
  split; [apply get_logs_ok; auto; unfold min_int64; nia|].
  unfold logs_page. cbn [lp_logs lp_total lp_total_pages].
  split; [|split; [reflexivity|split]].
  - unfold limit_offset.
    replace (limit <? 0) with false by (symmetry; apply Z.ltb_ge; lia).
    reflexivity.
  - intros Ht. replace (_ >? 0) with true by (symmetry; apply Z.gtb_lt; lia).
    apply ceil_div; lia.
  - intros Ht. rewrite Ht. split; [reflexivity|].
    assert (Hnil : rows lg = []) by (destruct (rows lg); [reflexivity|discriminate]).
    rewrite Hnil. unfold limit_offset. simpl. rewrite skipn_nil.
    destruct (limit <? 0); rewrite ?firstn_nil; reflexivity.
Qed.

Lemma get_logs_window_witness :
  update_logs nine_hi <> None /\ 1 <= 1 /\ 1 <= 10 <= 100 /\
  (1 - 1) * 10 <= max_int64 /\
  exists r, get_logs 1 10 noon None nine_hi = (Ok r, nine_hi) /\
            lp_total r = 1 /\ lp_total_pages r = 1 /\
            List.length (lp_logs r) = 1%nat.
Proof.
  assert (Hp : 1 <= 1) by lia.
  assert (Hl : 1 <= 10 <= 100) by lia.
  assert (Ho : (1 - 1) * 10 <= max_int64) by (vm_compute; discriminate).
  split; [discriminate|]. split; [exact Hp|]. split; [exact Hl|].
  split; [exact Ho|].
  assert (Hlg : update_logs nine_hi =
                Some {| rows := log_rows nine_hi; seq := 1 |}) by reflexivity.
  destruct (get_logs_window 1 10 noon nine_hi _ Hlg Hp Hl Ho)
    as (r & Hrun & Hlogs & Htotal & Hpages & _).
  assert (Hone : lp_total r = 1) by (rewrite Htotal; reflexivity).
  exists r. split; [exact Hrun|]. split; [exact Hone|].
  split.
  - assert (Hpos : 0 < lp_total r) by (rewrite Hone; lia).
    apply Hpages in Hpos. rewrite Hone in Hpos. lia.
  - rewrite Hlogs. reflexivity.
Defined.

(** The claim of C4 fails for a page whose offset SQLite cannot take:
    page = 2^63 + 1 with limit = 1 is within the stated bounds, and
    [get_logs] raises instead of reporting a total. *)
Lemma get_logs_page_past_int64 :
  1 <= 2 ^ 63 + 1 /\ 1 <= 1 <= 100 /\
  get_logs (2 ^ 63 + 1) 1 noon None fresh_store = (Err OverflowError, fresh_store).
Proof.
  split; [lia|]. split; [lia|]. vm_compute. reflexivity.
Qed.

Lemma logs_page_length page limit rs :
  0 <= limit -> 0 <= (page - 1) * limit ->
  Z.of_nat (List.length (lp_logs (logs_page page limit rs))) =
  Z.max 0 (Z.min limit (Z.of_nat (List.length rs) - (page - 1) * limit)).
Proof.
  intros Hl Ho. unfold logs_page. cbn [lp_logs].
  rewrite length_map, limit_offset_length, order_by_length by assumption.
  reflexivity.
Qed.

(** C5, amended: on a store with its log table, for every page >= 1 and limit
    in [1,100] whose offset (page - 1) * limit is at least the number of log
    rows and fits SQLite's 64-bit INTEGER, [get_logs] returns, with no logs
    and with total and total_pages as for any other page; with 15 rows and
    limit 10, page 1 has 10 entries, page 2 has 5 and page 3 has none, with
    total_pages 2. *)
Theorem get_logs_beyond_last_page :
  (forall page limit clock db lg,
      update_logs db = Some lg ->
      1 <= page ->
      1 <= limit <= 100 ->
      Z.of_nat (List.length (rows lg)) <= (page - 1) * limit <= max_int64 ->
      exists r,
        get_logs page limit clock None db = (Ok r, db) /\
        lp_logs r = [] /\
        lp_total r = Z.of_nat (List.length (rows lg)) /\
        (0 < lp_total r ->
         limit * (lp_total_pages r - 1) < lp_total r <= limit * lp_total_pages r) /\
        (lp_total r = 0 -> lp_total_pages r = 1)) /\
  (forall clock db lg,
      update_logs db = Some lg ->
      List.length (rows lg) = 15%nat ->
      exists r1 r2 r3,
        get_logs 1 10 clock None db = (Ok r1, db) /\
        List.length (lp_logs r1) = 10%nat /\ lp_total_pages r1 = 2 /\
        get_logs 2 10 clock None db = (Ok r2, db) /\
        List.length (lp_logs r2) = 5%nat /\
        get_logs 3 10 clock None db = (Ok r3, db) /\
        List.length (lp_logs r3) = 0%nat /\ lp_total_pages r3 = 2).
Proof.
  split.
  - intros page limit clock db lg Hlg Hp Hl Ho.
    exists (logs_page page limit (rows lg)).
    split; [apply get_logs_ok; auto; unfold min_int64; nia|].
    split; [|split; [reflexivity|split]].
    + apply length_zero_iff_nil. apply Nat2Z.inj.
      rewrite logs_page_length by nia. lia.
    + unfold logs_page. cbn [lp_total lp_total_pages]. intros Ht.
      replace (_ >? 0) with true by (symmetry; apply Z.gtb_lt; lia).
      apply ceil_div; lia.
    + unfold logs_page. cbn [lp_total lp_total_pages]. intros ->. reflexivity.
  - intros clock db lg Hlg H15.
    exists (logs_page 1 10 (rows lg)), (logs_page 2 10 (rows lg)),
      (logs_page 3 10 (rows lg)).
    assert (Hmax : 20 <= max_int64) by (vm_compute; discriminate).
    assert (Hmin : min_int64 <= 0) by (vm_compute; discriminate).
    assert (Hpages : forall page,
               lp_total_pages (logs_page page 10 (rows lg)) = 2).
    { intros page. unfold logs_page. cbn [lp_total_pages]. rewrite H15.
      reflexivity. }
    repeat split; try (apply get_logs_ok; auto; lia); try apply Hpages;
      apply Nat2Z.inj; rewrite logs_page_length, H15 by lia; reflexivity.
Qed.

Lemma get_logs_beyond_last_page_witness :
  update_logs (store_with_logs 15) <> None /\
  List.length (log_rows (store_with_logs 15)) = 15%nat /\
  Z.of_nat 15 <= (3 - 1) * 10 <= max_int64 /\
  map (fun page =>
         match fst (get_logs page 10 noon None (store_with_logs 15)) with
         | Ok r => Some (List.length (lp_logs r), lp_total r, lp_total_pages r)
         | Err _ => None
         end) [1; 2; 3] =
  [Some (10%nat, 15, 2); Some (5%nat, 15, 2); Some (0%nat, 15, 2)].
Proof.
  assert (Hlg : update_logs (store_with_logs 15) =
                Some {| rows := log_rows (store_with_logs 15); seq := 15 |})
    by reflexivity.
  assert (H15 : List.length (rows {| rows := log_rows (store_with_logs 15);
                                     seq := 15 |}) = 15%nat) by reflexivity.
  assert (Ho : Z.of_nat (List.length (rows {| rows := log_rows (store_with_logs 15);
                                             seq := 15 |}))
               <= (3 - 1) * 10 <= max_int64)
    by (split; vm_compute; discriminate).
  split; [discriminate|]. split; [reflexivity|]. split; [exact Ho|].
  destruct (proj2 get_logs_beyond_last_page noon _ _ Hlg H15)
    as (r1 & r2 & r3 & Hr1 & Hl1 & Hp1 & Hr2 & Hl2 & Hr3 & Hl3 & Hp3).
  destruct (proj1 get_logs_beyond_last_page 3 10 noon _ _ Hlg
              ltac:(lia) ltac:(lia) Ho) as (r & Hr & Hnil & Htotal & _).
  cbn [map]. rewrite Hr1, Hr2, Hr3. cbn [fst]. rewrite Hl1, Hl2, Hl3, Hp1, Hp3.
  assert (P2 : lp_total_pages r2 = 2)
    by (vm_compute in Hr2; inversion Hr2; reflexivity).
  assert (T1 : lp_total r1 = 15) by (apply get_logs_total in Hr1 as ->; reflexivity).
  assert (T2 : lp_total r2 = 15) by (apply get_logs_total in Hr2 as ->; reflexivity).
  assert (T3 : lp_total r3 = 15) by (apply get_logs_total in Hr3 as ->; reflexivity).
  rewrite T1, T2, T3, P2. reflexivity.
Defined.

(** The claim of C5 fails for a page far beyond the last one: with one log
    row, page = 92233720368547760 and limit = 100 are within the stated
    bounds and past the last page, and [get_logs] raises. *)
Lemma get_logs_far_page_raises :
  1 <= 92233720368547760 /\ 1 <= 100 <= 100 /\
  Z.of_nat (List.length (log_rows nine_hi)) <= (92233720368547760 - 1) * 100 /\
  get_logs 92233720368547760 100 noon None nine_hi = (Err OverflowError, nine_hi).
Proof.
  split; [lia|]. split; [lia|]. split; [vm_compute; discriminate|].
  vm_compute. reflexivity.
Qed.

(** C6: the entries [get_logs] returns are ordered newest first: whenever an
    entry A with an older timestamp and an entry B with a newer one are both
    in the page, B stands before A. *)
Theorem get_logs_newest_first page limit clock fault db r db' i j A B :
  get_logs page limit clock fault db = (Ok r, db') ->
  nth_error (lp_logs r) i = Some B ->
  nth_error (lp_logs r) j = Some A ->
  String.ltb (le_timestamp A) (le_timestamp B) = true ->
  (i < j)%nat.
Proof.
  intros Hrun HB HA Hlt.
  assert (Hsorted : StronglySorted
                      (fun x y => String.leb (le_timestamp y) (le_timestamp x) = true)
                      (lp_logs r)).
  { rewrite get_logs_run in Hrun. unfold io_error, missing in Hrun.
    destruct (hit fault 0); [discriminate|].
    destruct (update_logs db) as [t|]; [|discriminate].
    destruct (_ && _); [discriminate|].
    destruct (hit fault 1); [discriminate|].
    destruct (_ && _); [|discriminate].
    inversion Hrun; subst. unfold logs_page. cbn [lp_logs].
    apply sorted_map with (R := newest_first); [auto|].
    apply limit_offset_sorted, order_by_sorted. }
  destruct (Nat.lt_trichotomy i j) as [Hij|[Hij|Hij]]; [assumption| |].
  - subst j. rewrite HB in HA. inversion HA; subst.
    rewrite ltb_irrefl in Hlt. discriminate.
  - pose proof (sorted_nth _ _ Hsorted j i A B Hij HA HB) as Hle.
    cbv beta in Hle. apply ltb_leb_false in Hlt. congruence.
Qed.

Lemma get_logs_newest_first_witness :
  get_logs 1 10 noon None two_logs = (Ok two_logs_page, two_logs) /\
  String.ltb (le_timestamp older_entry) (le_timestamp newer_entry) = true /\
  (0 < 1)%nat.
Proof.
  assert (Hrun : get_logs 1 10 noon None two_logs = (Ok two_logs_page, two_logs))
    by (vm_compute; reflexivity).
  assert (Hlt : String.ltb (le_timestamp older_entry) (le_timestamp newer_entry)
                = true) by reflexivity.
  split; [exact Hrun|]. split; [exact Hlt|].
  exact (get_logs_newest_first 1 10 noon None two_logs two_logs_page two_logs
           0 1 older_entry newer_entry Hrun eq_refl eq_refl Hlt).
Defined.

(** ** Initialisation *)

Lemma init_db_noop clock db st lg :
  journal_mode db = WAL ->
  shared_state db = Some st ->
  rows st <> [] ->
  update_logs db = Some lg ->
  init_db clock None db = (Ok tt, db).
Proof.
  intros Hj Hst Hrows Hlg. rewrite init_db_run. unfold initialized.
  destruct db as [jm s l]. cbn in *. subst.
  destruct (rows st) as [|r rs] eqn:E; [congruence|]. cbn [created].
  rewrite E. reflexivity.
Qed.

Lemma initialized_populated clock db :
  exists st lg,
    journal_mode (initialized clock db) = WAL /\
    shared_state (initialized clock db) = Some st /\
    rows st <> [] /\
    update_logs (initialized clock db) = Some lg.
Proof.
  unfold initialized. cbn [journal_mode shared_state update_logs].
  eexists _, _. split; [reflexivity|]. split; [reflexivity|].
  split; [|reflexivity].
  destruct (rows (created (shared_state db))) as [|r rs] eqn:E.
  - cbn. rewrite ?E. destruct (rows _); discriminate.
  - cbn. rewrite ?E. discriminate.
Qed.

Lemma init_db_ok clock db :
  (state_rows db = [] -> exhausted sr_id (created (shared_state db)) = false) ->
  init_db clock None db = (Ok tt, initialized clock db).
Proof.
  intros Hfree. rewrite init_db_run. cbv zeta.
  destruct (Z.of_nat (List.length (rows (created (shared_state db)))) =? 0)
    eqn:E; [|reflexivity].
  rewrite Hfree; [reflexivity|].
  apply Z.eqb_eq in E. unfold state_rows.
  destruct (shared_state db) as [st|]; [|reflexivity].
  cbn [created] in E. destruct (rows st); [reflexivity|discriminate].
Qed.

Lemma init_db_again clock clock' db :
  snd (init_db clock' None (snd (init_db clock None db))) =
  snd (init_db clock None db).
Proof.
  rewrite (init_db_run clock db). cbv zeta.
  destruct (_ && _) eqn:E; cbn [snd].
  - rewrite init_db_run. cbv zeta. cbn [prepared shared_state created].
    rewrite E. reflexivity.
  - destruct (initialized_populated clock db) as (st & lg & Hj & Hst & Hr & Hlg).
    rewrite (init_db_noop clock' _ st lg) by assumption. reflexivity.
Qed.


(** C8: [init_db] on an empty file creates both tables and one state row
    with counter 0 and message [""]; on a store that is already initialised
    it changes nothing; on any file whose state table, if it has no row, has
    a rowid left, it returns and a second call then changes nothing; so after
    any number of consecutive calls the store is the one the first call left:
    one state row, untouched, and the same log table. *)
Theorem init_db_idempotent :
  (forall clock,
      init_db clock None empty_database =
      (Ok tt,
       {| journal_mode := WAL;
          shared_state :=
            Some {| rows := [{| sr_id := 1; sr_counter := Some 0;
                                sr_message := Some ""%string;
                                sr_updated_at := clock 4%nat |}];
                    seq := 1 |};
          update_logs := Some {| rows := []; seq := 0 |} |})) /\
  (forall clock db st lg,
      journal_mode db = WAL ->
      shared_state db = Some st ->
      rows st <> [] ->
      update_logs db = Some lg ->
      init_db clock None db = (Ok tt, db)) /\
  (forall clock clock' db,
      (state_rows db = [] ->
       exhausted sr_id (created (shared_state db)) = false) ->
      exists db1,
        init_db clock None db = (Ok tt, db1) /\
        init_db clock' None db1 = (Ok tt, db1)) /\
  (forall clock clocks db,
      init_db_repeatedly (clock :: clocks) db = snd (init_db clock None db)).
Proof.
  split; [intros clock; reflexivity|].
  split; [exact init_db_noop|]. split.
  - intros clock clock' db Hfree. exists (initialized clock db).
    split; [now apply init_db_ok|].
    destruct (initialized_populated clock db) as (st & lg & Hj & Hst & Hr & Hlg).
    eapply init_db_noop; eassumption.
  - intros clock clocks db. cbn [init_db_repeatedly].
    induction clocks as [|c cs IH]; [reflexivity|].
    cbn [init_db_repeatedly]. rewrite init_db_again. exact IH.
Qed.

Lemma init_db_idempotent_witness :
  journal_mode fresh_store = WAL /\
  shared_state fresh_store <> None /\
  state_rows fresh_store <> [] /\
  update_logs fresh_store <> None /\
  init_db noon None empty_database = (Ok tt, fresh_store) /\
  init_db later None fresh_store = (Ok tt, fresh_store) /\
  (state_rows empty_database = [] ->
   exhausted sr_id (created (shared_state empty_database)) = false) /\
  (exists db1,
      init_db noon None empty_database = (Ok tt, db1) /\
      init_db later None db1 = (Ok tt, db1)) /\
  init_db_repeatedly [noon; later; later] empty_database = fresh_store.
Proof.
  destruct init_db_idempotent as (Hfirst & Hnoop & Htwice & Hmany).
  assert (Hfree : state_rows empty_database = [] ->
                  exhausted sr_id (created (shared_state empty_database)) = false)
    by (intros _; reflexivity).
  split; [reflexivity|]. split; [discriminate|]. split; [discriminate|].
  split; [discriminate|].
  split; [exact (Hfirst noon)|].
  split.
  { apply (Hnoop later fresh_store
             {| rows := [default_row (noon 4%nat) 1]; seq := 1 |}
             {| rows := []; seq := 0 |});
      [reflexivity|reflexivity|discriminate|reflexivity]. }
  split; [exact Hfree|].
  split; [exact (Htwice noon later empty_database Hfree)|].
  rewrite Hmany, (Hfirst noon). reflexivity.
Defined.

(** * Further properties *)

(** ** Errors and edge cases of [update_state] *)

Lemma bindable_some v : bindable (Some v) = in_int64 v.
Proof. reflexivity. Qed.

Lemma in_int64_iff v : in_int64 v = true <-> - 2 ^ 63 <= v <= 2 ^ 63 - 1.
Proof.
  unfold in_int64, min_int64, max_int64.
  rewrite andb_true_iff, !Z.leb_le. tauto.
Qed.

(** X1: on a store with both tables whose log table has a rowid left,
    [update_state(counter=v)] returns exactly when [v] is a signed 64-bit
    integer ([- 2^63 <= v <= 2^63 - 1]); for any other [v] it raises
    [OverflowError] and the store is unchanged. *)
Theorem update_state_counter_bounds clock db st lg v message :
  shared_state db = Some st ->
  update_logs db = Some lg ->
  bindable (stored_counter db) = true ->
  exhausted lr_id lg = false ->
  (- 2 ^ 63 <= v <= 2 ^ 63 - 1 ->
   exists res db',
     update_state (Some v) message clock None db = (Ok res, db') /\
     ur_new_counter res = Some v) /\
  (~ (- 2 ^ 63 <= v <= 2 ^ 63 - 1) ->
   update_state (Some v) message clock None db = (Err OverflowError, db)).
Proof.
  intros Hst Hlg Hb Hfree. split.
  - intros Hv. apply in_int64_iff in Hv.
    rewrite (update_state_ok (Some v) message clock db st lg) by assumption.
    eexists _, _. split; reflexivity.
  - intros Hv. rewrite update_state_run. cbn [hit]. rewrite Hst.
    cbn [merged]. rewrite bindable_some.
    destruct (in_int64 v) eqn:E; [apply in_int64_iff in E; contradiction|].
    reflexivity.
Qed.

Lemma update_state_counter_bounds_witness :
  shared_state fresh_store <> None /\
  update_logs fresh_store <> None /\
  bindable (stored_counter fresh_store) = true /\
  exhausted lr_id {| rows := []; seq := 0 |} = false /\
  - 2 ^ 63 <= 2 ^ 63 - 1 <= 2 ^ 63 - 1 /\
  ~ (- 2 ^ 63 <= 2 ^ 63 <= 2 ^ 63 - 1) /\
  (exists res db',
      update_state (Some (2 ^ 63 - 1)) None noon None fresh_store = (Ok res, db') /\
      ur_new_counter res = Some (2 ^ 63 - 1)) /\
  update_state (Some (2 ^ 63)) None noon None fresh_store =
    (Err OverflowError, fresh_store).
Proof.
  assert (Hst : shared_state fresh_store =
                Some {| rows := [default_row (noon 4%nat) 1]; seq := 1 |})
    by reflexivity.
  assert (Hlg : update_logs fresh_store = Some {| rows := []; seq := 0 |})
    by reflexivity.
  assert (Hb : bindable (stored_counter fresh_store) = true) by reflexivity.
  assert (Hin : - 2 ^ 63 <= 2 ^ 63 - 1 <= 2 ^ 63 - 1)
    by (split; vm_compute; discriminate).
  assert (Hout : ~ (- 2 ^ 63 <= 2 ^ 63 <= 2 ^ 63 - 1))
    by (intros [_ H]; vm_compute in H; congruence).
  assert (Hfree : exhausted lr_id {| rows := @nil LogRow; seq := 0 |} = false)
    by reflexivity.
  split; [discriminate|]. split; [discriminate|]. split; [exact Hb|].
  split; [exact Hfree|].
  split; [exact Hin|]. split; [exact Hout|].
  split.
  - exact (proj1 (update_state_counter_bounds noon fresh_store _ _ (2 ^ 63 - 1)
                    None Hst Hlg Hb Hfree) Hin).
  - exact (proj2 (update_state_counter_bounds noon fresh_store _ _ (2 ^ 63)
                    None Hst Hlg Hb Hfree) Hout).
Defined.

(** X2: before [init_db] has created the tables the calls raise
    [sqlite3.OperationalError] and leave the file as it is:
    [get_current_state] and [update_state] when [shared_state] is missing,
    [get_logs] when [update_logs] is missing; and [update_state] on a file
    that has [shared_state] but no [update_logs] raises after its UPDATE,
    which is then not kept. *)
Theorem missing_tables_raise clock db :
  (shared_state db = None ->
   get_current_state clock None db =
     (Err (OperationalError "no such table: shared_state"), db) /\
   forall counter message,
     update_state counter message clock None db =
       (Err (OperationalError "no such table: shared_state"), db)) /\
  (update_logs db = None ->
   (forall page limit,
       get_logs page limit clock None db =
         (Err (OperationalError "no such table: update_logs"), db)) /\
   forall counter message,
     shared_state db <> None ->
     bindable (merged counter (stored_counter db)) = true ->
     update_state counter message clock None db =
       (Err (OperationalError "no such table: update_logs"), db)).
Proof.
  split.
  - intros Hst. split.
    + rewrite get_current_state_run. cbn [hit]. rewrite Hst. reflexivity.
    + intros counter message. rewrite update_state_run. cbn [hit].
      rewrite Hst. reflexivity.
  - intros Hlg. split.
    + intros page limit. rewrite get_logs_run. cbn [hit]. rewrite Hlg.
      reflexivity.
    + intros counter message Hst Hb. rewrite update_state_run. cbn [hit].
      destruct (shared_state db); [|congruence].
      rewrite Hb, Hlg. reflexivity.
Qed.

Lemma missing_tables_raise_witness :
  shared_state empty_database = None /\
  update_logs empty_database = None /\
  get_current_state noon None empty_database =
    (Err (OperationalError "no such table: shared_state"), empty_database) /\
  get_logs 1 10 noon None empty_database =
    (Err (OperationalError "no such table: update_logs"), empty_database).
Proof.
  assert (Hst : shared_state empty_database = None) by reflexivity.
  assert (Hlg : update_logs empty_database = None) by reflexivity.
  split; [exact Hst|]. split; [exact Hlg|]. split.
  - exact (proj1 (proj1 (missing_tables_raise noon empty_database) Hst)).
  - exact (proj1 (proj2 (missing_tables_raise noon empty_database) Hlg) 1 10).
Defined.

(** X3: on a [shared_state] table without rows (and a log table with a
    rowid left) [update_state] still returns and logs the requested values,
    with the defaults 0 and [""] as old values, but its UPDATE matches no
    row: the table stays empty and the state read back afterwards is still
    the default. *)
Theorem update_state_on_empty_state_table clock clock' db st lg counter message :
  shared_state db = Some st ->
  rows st = [] ->
  update_logs db = Some lg ->
  exhausted lr_id lg = false ->
  bindable counter = true ->
  exists res db' entry,
    update_state counter message clock None db = (Ok res, db') /\
    ur_old_counter res = Some 0 /\
    ur_old_message res = Some ""%string /\
    ur_new_counter res = merged counter (Some 0) /\
    ur_new_message res = merged message (Some ""%string) /\
    log_rows db' = (log_rows db ++ [entry])%list /\
    lr_new_counter entry = merged counter (Some 0) /\
    lr_new_message entry = merged message (Some ""%string) /\
    state_rows db' = [] /\
    get_current_state clock' None db' =
      (Ok {| st_counter := Some 0; st_message := Some ""%string |}, db').
Proof.
  intros Hst Hrows Hlg Hfree Hb.
  assert (Hc : stored_counter db = Some 0)
    by (unfold stored_counter, state_rows; rewrite Hst, Hrows; reflexivity).
  assert (Hm : stored_message db = Some ""%string)
    by (unfold stored_message, state_rows; rewrite Hst, Hrows; reflexivity).
  exists (update_result counter message db),
    (updated clock counter message db st lg),
    (new_entry clock counter message db lg).
  split.
  { apply update_state_ok; auto.
    - rewrite Hc. reflexivity.
    - rewrite Hc. destruct counter; [exact Hb|reflexivity]. }
  rewrite (updated_log_rows clock counter message db st lg Hlg).
  unfold update_result, new_entry, log_record.
  cbn [ur_old_counter ur_old_message ur_new_counter ur_new_message
       lr_new_counter lr_new_message].
  rewrite Hc, Hm. repeat split.
  - unfold state_rows, updated. cbn [shared_state rows]. rewrite Hrows.
    reflexivity.
  - rewrite get_current_state_run. cbn [hit]. cbn [updated shared_state].
    fold (updated clock counter message db st lg).
    rewrite updated_stored_counter, updated_stored_message by assumption.
    unfold state_rows. rewrite Hst, Hrows. reflexivity.
Qed.

Lemma update_state_on_empty_state_table_witness :
  let db := {| journal_mode := WAL;
               shared_state := Some {| rows := []; seq := 0 |};
               update_logs := Some {| rows := []; seq := 0 |} |} in
  shared_state db <> None /\ state_rows db = [] /\ update_logs db <> None /\
  exhausted lr_id {| rows := []; seq := 0 |} = false /\
  bindable (Some 9) = true /\
  exists res db',
    update_state (Some 9) None noon None db = (Ok res, db') /\
    ur_new_counter res = Some 9 /\
    fst (get_current_state later None db') =
      Ok {| st_counter := Some 0; st_message := Some ""%string |}.
Proof.
  intros db.
  assert (Hst : shared_state db = Some {| rows := []; seq := 0 |}) by reflexivity.
  assert (Hlg : update_logs db = Some {| rows := []; seq := 0 |}) by reflexivity.
  assert (Hb : bindable (Some 9) = true) by reflexivity.
  assert (Hfree : exhausted lr_id {| rows := @nil LogRow; seq := 0 |} = false)
    by reflexivity.
  split; [discriminate|]. split; [reflexivity|]. split; [discriminate|].
  split; [exact Hfree|]. split; [exact Hb|].
  destruct (update_state_on_empty_state_table noon later db _ _ (Some 9) None
              Hst eq_refl Hlg Hfree Hb)
    as (res & db' & entry & Hrun & _ & _ & Hnew & _ & _ & _ & _ & _ & Hget).
  exists res, db'. split; [exact Hrun|]. split; [exact Hnew|].
  rewrite Hget. reflexivity.
Defined.

(** ** [init_db] when statements fail *)

Lemma hoare_bind {A B} (P : connection -> Prop) (m : M A) (k : A -> M B)
    (Q : result A -> connection -> Prop) (R : result B -> connection -> Prop) :
  hoare P m Q ->
  (forall e c, Q (Err e) c -> R (Err e) c) ->
  (forall a, hoare (Q (Ok a)) (k a) R) ->
  hoare P (bind m k) R.
Proof.
  intros Hm Herr Hk clock fault c r c' Hp H. unfold bind in H.
  destruct (m clock fault c) as [[a|e] c1] eqn:E.
  - eapply Hk; [|eassumption]. eapply Hm; eassumption.
  - inversion H; subst. apply Herr. eapply Hm; eassumption.
Qed.

Lemma hoare_weaken {A} (P P' : connection -> Prop) (m : M A)
    (Q Q' : result A -> connection -> Prop) :
  hoare P' m Q' ->
  (forall c, P c -> P' c) ->
  (forall r c, Q' r c -> Q r c) ->
  hoare P m Q.
Proof.
  intros Hm Hp Hq clock fault c r c' Hc H. apply Hq. eapply Hm; eauto.
Qed.

Lemma run_insert_default_state clock fault c :
  insert_default_state clock fault c =
  if hit fault (pc c) then (io_error, c) else
  match shared_state (view c) with
  | None => (missing "shared_state", tick c)
  | Some t =>
      if exhausted sr_id t
      then (full_error, in_txn c (view c))
      else (Ok tt,
            in_txn c (with_shared_state (view c)
                        (appended sr_id t (default_row (clock (pc c))))))
  end.
Proof.
  unfold insert_default_state, bind, step, read, begin, current_timestamp,
    write, no_such_table, database_full, raise, ret, append_row, next_rowid,
    appended, full_error.
  destruct (hit fault (pc c)); [reflexivity|].
  change (view (tick c)) with (view c).
  destruct (shared_state (view c)) as [t|] eqn:E; [|reflexivity].
  unfold view in *. destruct c as [f [d|] n]; simpl in *;
    destruct (exhausted sr_id t); reflexivity.
Qed.

Section InitUnderFaults.

(** The state rows the call started from, and whether the table existed. *)
Variable S : list StateRow.
Variable had_table : Prop.

Lemma init_inv_step :
  hoare (init_inv S had_table) step (fun _ c => init_inv S had_table c).
Proof.
  intros clock fault c r c' Hc H. unfold step in H.
  destruct (hit fault (pc c)); inversion H; subst; exact Hc.
Qed.

Lemma init_inv_write f :
  (forall d, (init_ok S had_table) d -> (init_ok S had_table) (f d)) ->
  hoare (init_inv S had_table) (write f) (fun _ c => init_inv S had_table c).
Proof.
  intros Hf clock fault c r c' [Hfile Hview] H. unfold write in H.
  unfold init_inv, view in *.
  destruct (txn c) eqn:T; inversion H; subst; cbn [file txn]; auto.
Qed.

Lemma init_inv_statement f :
  (forall d, (init_ok S had_table) d -> (init_ok S had_table) (f d)) ->
  hoare (init_inv S had_table) (_ <- step ;; write f) (fun _ c => init_inv S had_table c).
Proof.
  intros Hf. eapply hoare_bind; [apply init_inv_step|auto|].
  intros ?. apply init_inv_write. exact Hf.
Qed.

Lemma init_inv_pragma :
  hoare (init_inv S had_table) pragma_journal_mode_wal (fun _ c => init_inv S had_table c).
Proof.
  eapply hoare_bind; [apply init_inv_step|auto|].
  intros ? clock fault c r c' [Hfile Hview] H. unfold init_inv, view in *.
  destruct (txn c) eqn:T; inversion H; subst; cbn [file txn]; rewrite ?T; auto.
Qed.

Lemma init_inv_create_shared_state :
  hoare (init_inv S had_table) create_shared_state (fun _ c => init_inv S had_table c).
Proof.
  apply init_inv_statement. intros d [Hs Ht]. unfold init_ok, state_rows in *.
  destruct (shared_state d) eqn:E; [rewrite E; auto|].
  cbn. split; [assumption|discriminate].
Qed.

Lemma init_inv_create_update_logs :
  hoare (init_inv S had_table) create_update_logs (fun _ c => init_inv S had_table c).
Proof.
  apply init_inv_statement. intros d Hd.
  destruct (update_logs d); exact Hd.
Qed.

Lemma init_inv_count :
  hoare (init_inv S had_table) count_shared_state
    (fun r c => (init_inv S had_table) c /\
                forall n, r = Ok n -> n = 0 -> state_rows (view c) = []).
Proof.
  intros clock fault c r c' Hc H.
  unfold count_shared_state, bind, step, read, no_such_table, raise, ret in H.
  destruct (hit fault (pc c)); [inversion H; subst; split; [exact Hc|discriminate]|].
  change (view (tick c)) with (view c) in H.
  destruct (shared_state (view c)) as [t|] eqn:E; inversion H; subst;
    (split; [exact Hc|]); [|discriminate].
  intros n Hn Hz. inversion Hn; subst.
  change (view (tick c)) with (view c). unfold state_rows. rewrite E.
  destruct (rows t); [reflexivity|discriminate].
Qed.

Lemma init_inv_insert :
  hoare (fun c => init_inv S had_table c /\ state_rows (view c) = [])
        insert_default_state (fun _ c => init_inv S had_table c).
Proof.
  intros clock fault c r c' [[Hfile Hview] Hempty] H.
  rewrite run_insert_default_state in H. unfold io_error, missing in H.
  destruct (hit fault (pc c)); [inversion H; subst; split; assumption|].
  destruct (shared_state (view c)) as [t|] eqn:E;
    [|inversion H; subst; split; assumption].
  destruct (exhausted sr_id t);
    inversion H; subst; [split; [exact Hfile|exact Hview]|].
  split; [exact Hfile|]. cbn [view in_txn txn].
  unfold state_rows in Hempty. rewrite E in Hempty.
  destruct Hview as [Hs Ht]. split.
  - right. unfold state_rows in Hs. rewrite E, Hempty in Hs.
    assert (HS : S = []).
    { destruct Hs as [Hs|[Hs _]]; [symmetry; exact Hs|exact Hs]. }
    split; [exact HS|].
    unfold state_rows. cbn. rewrite Hempty. cbn. eauto.
  - intros _. discriminate.
Qed.

Lemma init_inv_commit :
  hoare (init_inv S had_table) commit (fun _ c => init_inv S had_table c).
Proof.
  eapply hoare_bind; [apply init_inv_step|auto|].
  intros ? clock fault c r c' [Hfile Hview] H. inversion H; subst.
  split; exact Hview.
Qed.

Lemma init_inv_body :
  hoare (init_inv S had_table)
    (pragma_journal_mode_wal ;;
     create_shared_state ;;
     create_update_logs ;;
     n <- count_shared_state ;;
     (if n =? 0 then insert_default_state else ret tt) ;;
     commit)
    (fun _ c => init_inv S had_table c).
Proof.
  eapply hoare_bind; [apply init_inv_pragma|auto|]. intros ?.
  eapply hoare_bind; [apply init_inv_create_shared_state|auto|]. intros ?.
  eapply hoare_bind; [apply init_inv_create_update_logs|auto|]. intros ?.
  eapply hoare_bind; [apply init_inv_count|intros e c [Hc _]; exact Hc|].
  intros n. cbv beta.
  eapply hoare_bind with (Q := fun _ c => init_inv S had_table c);
    [|auto|intros ?; apply init_inv_commit].
  destruct (n =? 0) eqn:En.
  - eapply hoare_weaken; [apply init_inv_insert| |auto].
    intros c [Hc Hn]. split; [exact Hc|].
    apply (Hn n eq_refl). now apply Z.eqb_eq.
  - intros clock fault c r c' [Hc _] H. inversion H; subst. exact Hc.
Qed.

End InitUnderFaults.

Lemma init_db_state_rows clock fault db :
  same_or_seeded (state_rows db) (state_rows (snd (init_db clock fault db))) /\
  (shared_state db <> None ->
   shared_state (snd (init_db clock fault db)) <> None).
Proof.
  unfold init_db, connect.
  match goal with
  | |- context [let '(_, _) := ?run in _] => destruct run as [r c] eqn:E
  end.
  apply (init_inv_body (state_rows db) (shared_state db <> None)) in E.
  - destruct E as [Hfile _]. exact Hfile.
  - split; (split; [left; reflexivity|auto]).
Qed.

Lemma seeded_stored S db :
  same_or_seeded S (state_rows db) ->
  latest (state_rows db) = latest S \/
  (latest S = None /\ exists r, latest (state_rows db) = Some r /\
                                sr_counter r = Some 0 /\
                                sr_message r = Some ""%string).
Proof.
  intros [->|[-> (now & i & ->)]]; [left; reflexivity|].
  right. split; [reflexivity|]. eexists. split; [reflexivity|]. split; reflexivity.
Qed.

(** X4: [init_db], whatever statement of it fails, never changes the log
    rows, never drops or changes a state row that exists (the only change it
    can make to an empty [shared_state] table is the one default row), and so
    never changes what [get_current_state] returns. *)
Theorem init_db_keeps_data clock fault db :
  let db' := snd (init_db clock fault db) in
  log_rows db' = log_rows db /\
  (state_rows db' = state_rows db \/
   (state_rows db = [] /\
    exists now i,
      state_rows db' = [{| sr_id := i; sr_counter := Some 0;
                           sr_message := Some ""%string;
                           sr_updated_at := now |}])) /\
  forall clock1 clock2 s,
    get_current_state clock1 None db = (Ok s, db) ->
    get_current_state clock2 None db' = (Ok s, db').
Proof.
  intros db'. subst db'.
  destruct (init_db_state_rows clock fault db) as [Hseed Htable].
  split; [apply init_db_log_rows|]. split; [exact Hseed|].
  intros clock1 clock2 s. rewrite !get_current_state_run. cbn [hit].
  destruct (shared_state db) as [st|] eqn:Est; [|discriminate].
  specialize (Htable ltac:(discriminate)).
  destruct (shared_state (snd (init_db clock fault db))) as [st'|] eqn:Est';
    [|congruence].
  intros H. inversion H; subst. f_equal. f_equal.
  unfold stored_counter, stored_message.
  destruct (seeded_stored _ _ Hseed) as [->|(Hnone & r & -> & Hc & Hm)];
    [reflexivity|].
  rewrite Hnone, Hc, Hm. reflexivity.
Qed.

Lemma init_db_keeps_data_witness :
  get_current_state noon None five_hi =
    (Ok {| st_counter := Some 5; st_message := Some "hi"%string |}, five_hi) /\
  get_current_state later None (snd (init_db later (Some 5%nat) five_hi)) =
    (Ok {| st_counter := Some 5; st_message := Some "hi"%string |},
     snd (init_db later (Some 5%nat) five_hi)).
Proof.
  assert (Hget : get_current_state noon None five_hi =
                 (Ok {| st_counter := Some 5; st_message := Some "hi"%string |},
                  five_hi)) by reflexivity.
  split; [exact Hget|].
  exact (proj2 (proj2 (init_db_keeps_data later (Some 5%nat) five_hi))
           noon later _ Hget).
Defined.

(** ** Invariants along any sequence of calls *)

Lemma invoke_all_invariant (P : database -> Prop) :
  (forall i db, P db -> P (snd (invoke i db))) ->
  forall calls db, P db -> P (snd (invoke_all calls db)).
Proof.
  intros Hstep. induction calls as [|i calls IH]; intros db Hdb; [exact Hdb|].
  simpl. specialize (Hstep i db Hdb).
  destruct (invoke i db) as [ok db1]. cbn [snd] in Hstep.
  specialize (IH db1 Hstep).
  destruct (invoke_all calls db1) as [n db2]. exact IH.
Qed.

(** One call leaves the store as it was, or as an [init_db] leaves it, or as
    a returning [update_state] leaves it. *)
Lemma invoke_cases i db :
  snd (invoke i db) = db \/
  (exists clock fault, snd (invoke i db) = snd (init_db clock fault db)) \/
  (exists clock counter message st lg,
      shared_state db = Some st /\ update_logs db = Some lg /\
      snd (invoke i db) = updated clock counter message db st lg).
Proof.
  unfold invoke. destruct (inv_call i) as [| |counter message|page limit].
  - right. left. exists (inv_clock i), (inv_fault i). reflexivity.
  - left. apply get_current_state_file.
  - destruct (update_state _ _ _ _ _) as [[res|e] db'] eqn:Hrun; cbn [snd].
    + apply update_state_ok_inv in Hrun as (st & lg & Hst & Hlg & -> & ->).
      right. right. exists (inv_clock i), counter, message, st, lg. auto.
    + left. eapply update_state_rollback; eassumption.
  - left. apply get_logs_file.
Qed.

Lemma set_latest_ids c m now rs :
  map sr_id (set_latest c m now rs) = map sr_id rs.
Proof.
  unfold set_latest. destruct (latest rs) as [l|]; [|reflexivity].
  rewrite map_map. apply map_ext. intros r.
  destruct (sr_id r =? sr_id l); reflexivity.
Qed.

Lemma updated_state_rows clock counter message db st lg :
  shared_state db = Some st ->
  state_rows (updated clock counter message db st lg) =
  set_latest (merged counter (stored_counter db))
             (merged message (stored_message db)) (clock 1%nat) (state_rows db).
Proof. intros H. unfold state_rows. rewrite H. reflexivity. Qed.

Lemma invoke_state_ids i d :
  map sr_id (state_rows (snd (invoke i d))) = map sr_id (state_rows d) \/
  (state_rows d = [] /\ List.length (state_rows (snd (invoke i d))) = 1%nat).
Proof.
  destruct (invoke_cases i d)
    as [->|[(clock & fault & ->)|(clock & c & m & st & lg & Hst & Hlg & ->)]].
  - left. reflexivity.
  - destruct (init_db_state_rows clock fault d) as [[->|[He (now & k & ->)]] _].
    + left. reflexivity.
    + right. split; [exact He|reflexivity].
  - left. rewrite updated_state_rows by assumption. apply set_latest_ids.
Qed.

Lemma invoke_all_state_ids calls db :
  state_rows db <> [] ->
  map sr_id (state_rows (snd (invoke_all calls db))) = map sr_id (state_rows db).
Proof.
  intros Hne.
  apply (invoke_all_invariant
           (fun d => map sr_id (state_rows d) = map sr_id (state_rows db)));
    [|reflexivity].
  intros i d Hd. destruct (invoke_state_ids i d) as [H|[He _]]; [congruence|].
  rewrite He in Hd. destruct (state_rows db); [congruence|discriminate].
Qed.

(** X5: the state table keeps its rows. Along any sequence of calls of the
    four functions, with any faults, a non-empty [shared_state] table keeps
    the same rows by id (no insertion, no deletion), and an empty or missing
    one gets at most one row. *)
Theorem state_table_keeps_its_rows calls db :
  (state_rows db <> [] ->
   map sr_id (state_rows (snd (invoke_all calls db))) =
   map sr_id (state_rows db)) /\
  (state_rows db = [] ->
   (List.length (state_rows (snd (invoke_all calls db))) <= 1)%nat).
Proof.
  split; [apply invoke_all_state_ids|].
  intros He.
  apply (invoke_all_invariant
           (fun d => (List.length (state_rows d) <= 1)%nat));
    [|rewrite He; simpl; lia].
  intros i d Hd. destruct (invoke_state_ids i d) as [H|[_ H]]; [|lia].
  rewrite <- (length_map sr_id), H, length_map. exact Hd.
Qed.

Lemma state_table_keeps_its_rows_witness :
  let calls :=
    [ {| inv_call := InitDb; inv_clock := noon; inv_fault := Some 4%nat |};
      {| inv_call := InitDb; inv_clock := noon; inv_fault := None |};
      {| inv_call := UpdateState (Some 3) None; inv_clock := later;
         inv_fault := None |};
      {| inv_call := InitDb; inv_clock := later; inv_fault := None |} ] in
  state_rows empty_database = [] /\
  (List.length (state_rows (snd (invoke_all calls empty_database))) <= 1)%nat /\
  state_rows five_hi <> [] /\
  map sr_id (state_rows (snd (invoke_all calls five_hi))) = [1].
Proof.
  intros calls.
  assert (He : state_rows empty_database = []) by reflexivity.
  assert (Hne : state_rows five_hi <> []) by discriminate.
  split; [exact He|].
  split; [exact (proj2 (state_table_keeps_its_rows calls empty_database) He)|].
  split; [exact Hne|].
  rewrite (proj1 (state_table_keeps_its_rows calls five_hi) Hne). reflexivity.
Defined.

Lemma next_rowid_above {R} (id : R -> Z) (t : table R) r :
  In r (rows t) -> id r < largest_rowid id t + 1.
Proof.
  unfold largest_rowid. intros Hin.
  assert (H : id r <= fold_right (fun r acc => Z.max (id r) acc) 0 (rows t)).
  { induction (rows t) as [|x l IH]; [contradiction|].
    simpl. destruct Hin as [->|Hin]; [lia|]. specialize (IH Hin). lia. }
  lia.
Qed.

Lemma sorted_snoc l y :
  StronglySorted Z.lt l -> (forall x, In x l -> x < y) ->
  StronglySorted Z.lt (l ++ [y]).
Proof.
  induction 1 as [|a l Hs IH Ha]; intros Hy; simpl.
  - repeat constructor.
  - constructor.
    + apply IH. intros x Hx. apply Hy. now right.
    + rewrite Forall_forall in *. intros x Hx.
      apply in_app_or in Hx as [Hx|[<-|[]]]; [auto|].
      apply Hy. now left.
Qed.

(** X6: log rows get ever larger ids. If the ids of the log rows increase
    strictly in insertion order, they still do after any sequence of calls of
    the four functions, with any faults; in particular no two log rows share
    an id. *)
Theorem log_ids_increase calls db :
  StronglySorted Z.lt (map lr_id (log_rows db)) ->
  StronglySorted Z.lt (map lr_id (log_rows (snd (invoke_all calls db)))) /\
  NoDup (map lr_id (log_rows (snd (invoke_all calls db)))).
Proof.
  intros Hsorted.
  assert (H : StronglySorted Z.lt (map lr_id (log_rows (snd (invoke_all calls db))))).
  { apply (invoke_all_invariant
             (fun d => StronglySorted Z.lt (map lr_id (log_rows d))));
      [|exact Hsorted].
    intros i d Hd.
    destruct (invoke_cases i d)
      as [->|[(clock & fault & ->)|(clock & c & m & st & lg & Hst & Hlg & ->)]].
    - exact Hd.
    - rewrite init_db_log_rows. exact Hd.
    - rewrite (updated_log_rows _ _ _ _ _ _ Hlg), map_app. cbn [map].
      apply sorted_snoc; [exact Hd|].
      intros x Hx. apply in_map_iff in Hx as (r & <- & Hr).
      unfold new_entry, log_record. cbn [lr_id].
      apply next_rowid_above. unfold log_rows in Hr. now rewrite Hlg in Hr. }
  split; [exact H|].
  clear - H. induction H as [|a l Hs IH Ha]; constructor; [|exact IH].
  intros Hin. rewrite Forall_forall in Ha. specialize (Ha a Hin). lia.
Qed.

Lemma log_ids_increase_witness :
  let calls :=
    [ {| inv_call := UpdateState (Some 3) None; inv_clock := later;
         inv_fault := None |};
      {| inv_call := UpdateState None (Some "y"%string); inv_clock := later;
         inv_fault := None |} ] in
  StronglySorted Z.lt (map lr_id (log_rows two_logs)) /\
  map lr_id (log_rows (snd (invoke_all calls two_logs))) = [1; 2; 3; 4] /\
  NoDup (map lr_id (log_rows (snd (invoke_all calls two_logs)))).
Proof.
  intros calls.
  assert (Hs : StronglySorted Z.lt (map lr_id (log_rows two_logs))).
  { cbn. repeat constructor. }
  split; [exact Hs|]. split; [vm_compute; reflexivity|].
  exact (proj2 (log_ids_increase calls two_logs Hs)).
Defined.

Lemma chain_snoc s l e r :
  chain s l e ->
  (lr_old_counter r, lr_old_message r) = e ->
  chain s (l ++ [r]) (lr_new_counter r, lr_new_message r).
Proof.
  revert s. induction l as [|x l IH]; intros s Hc Hr; simpl in *.
  - split; [congruence|reflexivity].
  - destruct Hc as [Hx Hc]. split; [exact Hx|]. apply IH; assumption.
Qed.

Lemma init_db_stored clock fault db :
  stored_counter (snd (init_db clock fault db)) = stored_counter db /\
  stored_message (snd (init_db clock fault db)) = stored_message db.
Proof.
  destruct (init_db_state_rows clock fault db) as [Hseed _].
  unfold stored_counter, stored_message.
  destruct (seeded_stored _ _ Hseed) as [->|(-> & r & -> & -> & ->)];
    split; reflexivity.
Qed.

(** X7: the log is a chain that ends in the current state. On a store with a
    state row, if the log rows link up (each row's old values are the new
    values of the row before, starting from some state [s0]) and the last new
    values are the current state, the same holds after any sequence of calls
    of the four functions, with any faults. *)
Theorem log_chain_ends_in_state calls db s0 :
  state_rows db <> [] ->
  chain s0 (log_rows db) (stored_counter db, stored_message db) ->
  let db' := snd (invoke_all calls db) in
  chain s0 (log_rows db') (stored_counter db', stored_message db').
Proof.
  intros Hne Hchain db'. subst db'.
  apply (invoke_all_invariant
           (fun d => state_rows d <> [] /\
                     chain s0 (log_rows d) (stored_counter d, stored_message d)));
    [|split; assumption].
  intros i d [Hd Hc].
  destruct (invoke_cases i d)
    as [->|[(clock & fault & ->)|(clock & c & m & st & lg & Hst & Hlg & ->)]].
  - split; assumption.
  - destruct (init_db_stored clock fault d) as [-> ->].
    rewrite init_db_log_rows. split; [|exact Hc].
    destruct (init_db_state_rows clock fault d) as [[->|[He _]] _]; congruence.
  - split.
    + rewrite updated_state_rows by assumption. intros Hnil.
      apply (f_equal (map sr_id)) in Hnil. rewrite set_latest_ids in Hnil.
      destruct (state_rows d); [congruence|discriminate].
    + rewrite (updated_log_rows _ _ _ _ _ _ Hlg).
      rewrite updated_stored_counter, updated_stored_message by assumption.
      destruct (latest (state_rows d)) eqn:Hl;
        [|apply latest_none in Hl; congruence].
      apply (chain_snoc s0 (log_rows d) _ (new_entry clock c m d lg) Hc).
      reflexivity.
Qed.

Lemma log_chain_ends_in_state_witness :
  let calls :=
    [ {| inv_call := UpdateState (Some 3) None; inv_clock := later;
         inv_fault := None |};
      {| inv_call := UpdateState (Some 4) (Some "z"%string); inv_clock := later;
         inv_fault := Some 3%nat |};
      {| inv_call := InitDb; inv_clock := later; inv_fault := Some 2%nat |};
      {| inv_call := UpdateState None (Some "y"%string); inv_clock := later;
         inv_fault := None |} ] in
  state_rows fresh_store <> [] /\
  chain (Some 0, Some ""%string) (log_rows fresh_store)
        (stored_counter fresh_store, stored_message fresh_store) /\
  chain (Some 0, Some ""%string)
        (log_rows (snd (invoke_all calls fresh_store)))
        (Some 3, Some "y"%string).
Proof.
  intros calls.
  assert (Hne : state_rows fresh_store <> []) by discriminate.
  assert (Hc : chain (Some 0, Some ""%string) (log_rows fresh_store)
                     (stored_counter fresh_store, stored_message fresh_store))
    by reflexivity.
  split; [exact Hne|]. split; [exact Hc|].
  exact (log_chain_ends_in_state calls fresh_store _ Hne Hc).
Defined.

(** X8: two updates in a row compose field by field. On a store with a state
    row, when [update_state(c1, m1)] and then [update_state(c2, m2)] return,
    the second call's old values are the first call's new values, and the
    state read back is, for each field, the second value if present, else the
    first if present, else the original one. *)
Theorem update_state_twice clock1 clock2 clock3 db c1 m1 c2 m2 r1 db1 r2 db2 :
  state_rows db <> [] ->
  update_state c1 m1 clock1 None db = (Ok r1, db1) ->
  update_state c2 m2 clock2 None db1 = (Ok r2, db2) ->
  ur_old_counter r2 = ur_new_counter r1 /\
  ur_old_message r2 = ur_new_message r1 /\
  get_current_state clock3 None db2 =
    (Ok {| st_counter := merged c2 (merged c1 (ur_old_counter r1));
           st_message := merged m2 (merged m1 (ur_old_message r1)) |}, db2).
Proof.
  intros Hne H1 H2.
  apply update_state_ok_inv in H1 as (st & lg & Hst & Hlg & -> & ->).
  apply update_state_ok_inv in H2 as (st1 & lg1 & Hst1 & Hlg1 & -> & ->).
  assert (Hl : latest (state_rows db) <> None)
    by (intros Hl; apply latest_none in Hl; congruence).
  assert (Hc : stored_counter (updated clock1 c1 m1 db st lg) =
               merged c1 (stored_counter db)).
  { rewrite updated_stored_counter by assumption.
    destruct (latest (state_rows db)); [reflexivity|congruence]. }
  assert (Hm : stored_message (updated clock1 c1 m1 db st lg) =
               merged m1 (stored_message db)).
  { rewrite updated_stored_message by assumption.
    destruct (latest (state_rows db)); [reflexivity|congruence]. }
  assert (Hl1 : latest (state_rows (updated clock1 c1 m1 db st lg)) <> None).
  { rewrite (updated_latest _ _ _ _ _ _ Hst).
    destruct (latest (state_rows db)); [discriminate|congruence]. }
  unfold update_result.
  cbn [ur_old_counter ur_new_counter ur_old_message ur_new_message].
  split; [exact Hc|]. split; [exact Hm|].
  rewrite get_current_state_run. cbn [hit].
  cbn [updated shared_state].
  fold (updated clock2 c2 m2 (updated clock1 c1 m1 db st lg) st1 lg1).
  rewrite updated_stored_counter, updated_stored_message by assumption.
  destruct (latest (state_rows (updated clock1 c1 m1 db st lg)));
    [|congruence].
  rewrite Hc, Hm. reflexivity.
Qed.

Lemma update_state_twice_witness :
  state_rows five_hi <> [] /\
  update_state (Some 9) None noon None five_hi = (Ok nine_hi_result, nine_hi) /\
  (exists r2,
      update_state None (Some "x"%string) later None nine_hi = (Ok r2, two_logs)) /\
  get_current_state noon None two_logs =
    (Ok {| st_counter := Some 9; st_message := Some "x"%string |}, two_logs).
Proof.
  assert (Hne : state_rows five_hi <> []) by discriminate.
  assert (H1 : update_state (Some 9) None noon None five_hi =
               (Ok nine_hi_result, nine_hi)) by (vm_compute; reflexivity).
  assert (H2 : update_state None (Some "x"%string) later None nine_hi =
               (Ok {| ur_old_counter := Some 9; ur_new_counter := Some 9;
                      ur_old_message := Some "hi"%string;
                      ur_new_message := Some "x"%string |}, two_logs))
    by (vm_compute; reflexivity).
  split; [exact Hne|]. split; [exact H1|]. split; [eexists; exact H2|].
  exact (proj2 (proj2 (update_state_twice noon later noon five_hi
                         (Some 9) None None (Some "x"%string)
                         _ _ _ _ Hne H1 H2))).
Defined.

(** ** The pages of [get_logs] *)

Lemma get_logs_ok_inv page limit clock fault db r db' :
  get_logs page limit clock fault db = (Ok r, db') ->
  exists lg,
    update_logs db = Some lg /\ r = logs_page page limit (rows lg) /\ db' = db /\
    ((Z.of_nat (List.length (rows lg)) >? 0) && (limit =? 0) = false).
Proof.
  rewrite get_logs_run. unfold io_error, missing.
  destruct (hit fault 0); [discriminate|].
  destruct (update_logs db) as [lg|]; [|discriminate].
  destruct ((Z.of_nat (List.length (rows lg)) >? 0) && (limit =? 0)) eqn:Hz;
    [discriminate|].
  destruct (hit fault 1); [discriminate|].
  destruct (in_int64 limit && in_int64 ((page - 1) * limit)); [|discriminate].
  intros H. inversion H. exists lg. auto.
Qed.

Lemma in_skipn {A} n (l : list A) y : In y (skipn n l) -> In y l.
Proof.
  revert l. induction n as [|n IH]; intros [|x l]; simpl; auto.
Qed.

Lemma in_limit_offset {A} limit offset (l : list A) y :
  In y (limit_offset limit offset l) -> In y l.
Proof.
  unfold limit_offset. destruct (limit <? 0); intros H.
  - eapply in_skipn; eassumption.
  - eapply in_skipn, in_firstn; eassumption.
Qed.

(** X9: a page that [get_logs] returns for a limit >= 0 has at most [limit]
    entries, each of them a row of the log, and it repeats the page and the
    limit it was asked for. *)
Theorem get_logs_page_within_limit page limit clock fault db r db' :
  get_logs page limit clock fault db = (Ok r, db') ->
  0 <= limit ->
  Z.of_nat (List.length (lp_logs r)) <= limit /\
  (forall e, In e (lp_logs r) ->
             exists row, In row (log_rows db) /\ e = entry_of_row row) /\
  lp_page r = page /\ lp_limit r = limit.
Proof.
  intros Hrun Hl.
  apply get_logs_ok_inv in Hrun as (lg & Hlg & -> & _ & _).
  unfold logs_page. cbn [lp_logs lp_page lp_limit].
  split; [|split; [|split; reflexivity]].
  - rewrite length_map. unfold limit_offset.
    replace (limit <? 0) with false by (symmetry; apply Z.ltb_ge; lia).
    rewrite length_firstn. lia.
  - intros e He. apply in_map_iff in He as (row & <- & Hrow).
    exists row. split; [|reflexivity].
    apply in_limit_offset in Hrow.
    apply (Permutation_in _ (Permutation_sym (order_by_perm (rows lg)))) in Hrow.
    unfold log_rows. rewrite Hlg. exact Hrow.
Qed.

Lemma get_logs_page_within_limit_witness :
  get_logs 1 1 noon None two_logs =
    (Ok {| lp_logs := [newer_entry]; lp_page := 1; lp_limit := 1;
           lp_total := 2; lp_total_pages := 2 |}, two_logs) /\
  0 <= 1 /\
  Z.of_nat (List.length [newer_entry]) <= 1.
Proof.
  assert (Hrun : get_logs 1 1 noon None two_logs =
                 (Ok {| lp_logs := [newer_entry]; lp_page := 1; lp_limit := 1;
                        lp_total := 2; lp_total_pages := 2 |}, two_logs))
    by (vm_compute; reflexivity).
  assert (Hl : 0 <= 1) by lia.
  split; [exact Hrun|]. split; [exact Hl|].
  exact (proj1 (get_logs_page_within_limit 1 1 noon None two_logs _ _ Hrun Hl)).
Defined.

(** X10: with [limit = 0] (which only a direct caller can pass) [get_logs]
    divides by zero as soon as the log has a row, and raises
    [ZeroDivisionError]; on an empty log it returns the empty page with
    total 0 and total_pages 1. *)
Theorem get_logs_limit_zero page clock db lg :
  update_logs db = Some lg ->
  get_logs page 0 clock None db =
  match rows lg with
  | [] => (Ok {| lp_logs := []; lp_page := page; lp_limit := 0;
                 lp_total := 0; lp_total_pages := 1 |}, db)
  | _ :: _ => (Err ZeroDivisionError, db)
  end.
Proof.
  intros Hlg. rewrite get_logs_run. cbn [hit]. rewrite Hlg.
  destruct (rows lg) as [|row rs] eqn:Hrows.
  - cbn [List.length Z.of_nat Z.gtb Z.compare andb].
    rewrite Z.mul_0_r. reflexivity.
  - reflexivity.
Qed.

Lemma get_logs_limit_zero_witness :
  update_logs nine_hi <> None /\
  get_logs 3 0 noon None nine_hi = (Err ZeroDivisionError, nine_hi) /\
  get_logs 3 0 noon None fresh_store =
    (Ok {| lp_logs := []; lp_page := 3; lp_limit := 0;
           lp_total := 0; lp_total_pages := 1 |}, fresh_store).
Proof.
  assert (H1 : update_logs nine_hi = Some {| rows := log_rows nine_hi; seq := 1 |})
    by reflexivity.
  assert (H2 : update_logs fresh_store = Some {| rows := []; seq := 0 |})
    by reflexivity.
  split; [discriminate|]. split.
  - exact (get_logs_limit_zero 3 noon nine_hi _ H1).
  - exact (get_logs_limit_zero 3 noon fresh_store _ H2).
Defined.

Lemma chunks_concat {A} (n k : nat) (l : list A) :
  (List.length l <= k * n)%nat ->
  List.concat (map (fun i => firstn n (skipn (i * n) l)) (List.seq 0 k)) = l.
Proof.
  revert l. induction k as [|k IH]; intros l Hlen.
  - destruct l; [reflexivity|simpl in Hlen; lia].
  - cbn [List.seq map List.concat]. rewrite <- seq_shift, map_map.
    change (skipn (0 * n) l) with l.
    etransitivity; [|apply (firstn_skipn n l)]. f_equal.
    etransitivity; [|apply (IH (skipn n l)); rewrite length_skipn; lia].
    f_equal. apply map_ext. intros i.
    rewrite skipn_skipn. do 2 f_equal. simpl. lia.
Qed.

Lemma page_logs_chunk clock db lg limit p :
  update_logs db = Some lg ->
  1 <= limit <= 100 ->
  (1 <= p)%nat ->
  (Z.of_nat p - 1) * limit <= max_int64 ->
  page_logs clock db limit p =
  map entry_of_row
      (firstn (Z.to_nat limit)
         (skipn ((p - 1) * Z.to_nat limit) (order_by_timestamp_desc (rows lg)))).
Proof.
  intros Hlg Hl Hp Ho. unfold page_logs.
  rewrite (get_logs_ok (Z.of_nat p) limit clock db lg) by
    (auto; unfold min_int64; nia).
  cbn [fst]. unfold logs_page, limit_offset. cbn [lp_logs].
  replace (limit <? 0) with false by (symmetry; apply Z.ltb_ge; lia).
  do 3 f_equal. nia.
Qed.

(** X11: the pages tile the log. On a store with its log table (of at most
    2^63 - 1 rows) and for a limit in [1,100], the pages 1 to total_pages
    that [get_logs] returns, one after the other, are exactly the log entries
    in newest-first order, each entry once; and when the log is not empty
    none of these pages is empty. *)
Theorem pages_tile_the_log clock db lg limit :
  update_logs db = Some lg ->
  1 <= limit <= 100 ->
  Z.of_nat (List.length (rows lg)) <= max_int64 ->
  exists r,
    get_logs 1 limit clock None db = (Ok r, db) /\
    List.concat (map (page_logs clock db limit)
                (List.seq 1 (Z.to_nat (lp_total_pages r)))) =
      map entry_of_row (order_by_timestamp_desc (rows lg)) /\
    (0 < lp_total r ->
     forall p, (1 <= p <= Z.to_nat (lp_total_pages r))%nat ->
               page_logs clock db limit p <> []).
Proof.
  intros Hlg Hl Hmax.
  assert (Hmax0 : 0 <= max_int64) by (vm_compute; discriminate).
  exists (logs_page 1 limit (rows lg)).
  split; [apply get_logs_ok; auto; unfold min_int64; lia|].
  unfold logs_page. cbn [lp_total lp_total_pages].
  set (total := Z.of_nat (List.length (rows lg))) in *.
  set (tp := if total >? 0 then (total + limit - 1) / limit else 1).
  assert (Htp : 1 <= tp /\ limit * (tp - 1) <= total /\ total <= limit * tp /\
                (0 < total -> limit * (tp - 1) < total)).
  { unfold tp. destruct (total >? 0) eqn:Ht.
    - apply Z.gtb_lt in Ht. pose proof (ceil_div total limit Ht ltac:(lia)). nia.
    - rewrite Z.gtb_ltb in Ht. apply Z.ltb_ge in Ht.
      assert (total = 0) by (unfold total in *; lia). lia. }
  destruct Htp as (Htp1 & Hlow & Hup & Hstrict).
  assert (Hchunk : forall p, (1 <= p <= Z.to_nat tp)%nat ->
             page_logs clock db limit p =
             map entry_of_row
               (firstn (Z.to_nat limit)
                  (skipn ((p - 1) * Z.to_nat limit)
                     (order_by_timestamp_desc (rows lg))))).
  { intros p Hp. apply page_logs_chunk; auto; [lia|].
    assert (Hpz : 0 <= Z.of_nat p - 1 <= tp - 1) by lia.
    assert ((Z.of_nat p - 1) * limit <= (tp - 1) * limit)
      by (apply Z.mul_le_mono_nonneg_r; lia).
    lia. }
  split.
  - assert (Hmap : map (page_logs clock db limit) (List.seq 1 (Z.to_nat tp)) =
                   map (fun p => map entry_of_row
                                   (firstn (Z.to_nat limit)
                                      (skipn ((p - 1) * Z.to_nat limit)
                                         (order_by_timestamp_desc (rows lg)))))
                       (List.seq 1 (Z.to_nat tp))).
    { apply map_ext_in. intros p Hp. apply in_seq in Hp. apply Hchunk. lia. }
    rewrite Hmap.
    rewrite <- seq_shift, map_map.
    rewrite (map_ext _ (fun i => map entry_of_row
                                   (firstn (Z.to_nat limit)
                                      (skipn (i * Z.to_nat limit)
                                         (order_by_timestamp_desc (rows lg))))))
      by (intros x; do 3 f_equal; lia).
    rewrite <- (map_map (fun i => firstn (Z.to_nat limit)
                                   (skipn (i * Z.to_nat limit)
                                      (order_by_timestamp_desc (rows lg))))
                        (map entry_of_row)).
    rewrite <- concat_map.
    rewrite chunks_concat; [reflexivity|].
    rewrite order_by_length. apply Nat2Z.inj_le.
    rewrite Nat2Z.inj_mul, !Z2Nat.id by lia. unfold total in *. lia.
  - intros Hpos p Hp Hnil. specialize (Hstrict Hpos).
    rewrite Hchunk in Hnil by assumption.
    apply (f_equal (@List.length _)) in Hnil.
    rewrite length_map, length_firstn, length_skipn, order_by_length in Hnil.
    cbn [List.length] in Hnil.
    assert (Hpz : 0 <= Z.of_nat p - 1 <= tp - 1) by lia.
    assert (Hoff : (Z.of_nat p - 1) * limit <= (tp - 1) * limit)
      by (apply Z.mul_le_mono_nonneg_r; lia).
    assert (Hnat : Z.of_nat ((p - 1) * Z.to_nat limit) = (Z.of_nat p - 1) * limit)
      by (rewrite Nat2Z.inj_mul, Nat2Z.inj_sub, Z2Nat.id by lia; reflexivity).
    unfold total in *. lia.
Qed.

Lemma pages_tile_the_log_witness :
  update_logs two_logs <> None /\ 1 <= 1 <= 100 /\
  Z.of_nat (List.length (log_rows two_logs)) <= max_int64 /\
  exists r,
    get_logs 1 1 noon None two_logs = (Ok r, two_logs) /\
    List.concat (map (page_logs noon two_logs 1)
                     (List.seq 1 (Z.to_nat (lp_total_pages r)))) =
      [newer_entry; older_entry].
Proof.
  assert (Hlg : update_logs two_logs =
                Some {| rows := log_rows two_logs; seq := 2 |}) by reflexivity.
  assert (Hl : 1 <= 1 <= 100) by lia.
  assert (Hmax : Z.of_nat (List.length (rows {| rows := log_rows two_logs;
                                               seq := 2 |})) <= max_int64)
    by (vm_compute; discriminate).
  split; [discriminate|]. split; [exact Hl|]. split; [exact Hmax|].
  destruct (pages_tile_the_log noon two_logs _ 1 Hlg Hl Hmax)
    as (r & Hrun & Htile & _).
  exists r. split; [exact Hrun|]. rewrite Htile. reflexivity.
Defined.

(** ** After [init_db] *)

(** X12: a fault-free [init_db] returns on any file (empty, half
    initialised or in use) whose state table, if it has no row, has a rowid
    left, and leaves a store with a state row on which [get_current_state]
    and [get_logs] return, and on which [update_state] returns for a 64-bit
    counter when the log table has a rowid left. *)
Theorem init_db_makes_store_usable clock clock' db :
  bindable (stored_counter db) = true ->
  (state_rows db = [] -> exhausted sr_id (created (shared_state db)) = false) ->
  exists db1,
    init_db clock None db = (Ok tt, db1) /\
    state_rows db1 <> [] /\
    (exists s, get_current_state clock' None db1 = (Ok s, db1)) /\
    (exists r, get_logs 1 10 clock' None db1 = (Ok r, db1)) /\
    (forall v message,
        exhausted lr_id (created (update_logs db)) = false ->
        - 2 ^ 63 <= v <= 2 ^ 63 - 1 ->
        exists res db2,
          update_state (Some v) message clock' None db1 = (Ok res, db2)).
Proof.
  intros Hb Hfree. exists (initialized clock db).
  split; [now apply init_db_ok|].
  destruct (initialized_populated clock db) as (st & lg & _ & Hst & Hrows & Hlg).
  assert (Hlg' : lg = created (update_logs db))
    by (cbn [initialized update_logs] in Hlg; congruence).
  assert (Hstored : stored_counter (initialized clock db) = stored_counter db).
  { pose proof (proj1 (init_db_stored clock None db)) as H.
    rewrite (init_db_ok clock db Hfree) in H. exact H. }
  split; [unfold state_rows; rewrite Hst; exact Hrows|].
  split.
  { rewrite get_current_state_run. cbn [hit]. rewrite Hst. eauto. }
  split.
  { eexists. apply get_logs_ok with (lg := lg); [exact Hlg|lia|].
    split; vm_compute; discriminate. }
  intros v message Hlogfree Hv. apply in_int64_iff in Hv.
  rewrite (update_state_ok (Some v) message clock' _ st lg); eauto.
  - rewrite Hstored. exact Hb.
  - rewrite Hlg'. exact Hlogfree.
Qed.

Lemma init_db_makes_store_usable_witness :
  let half := snd (init_db noon (Some 4%nat) empty_database) in
  state_rows half = [] /\
  bindable (stored_counter half) = true /\
  (state_rows half = [] ->
   exhausted sr_id (created (shared_state half)) = false) /\
  exists db1,
    init_db later None half = (Ok tt, db1) /\ state_rows db1 <> [].
Proof.
  intros half.
  assert (Hb : bindable (stored_counter half) = true) by reflexivity.
  assert (Hfree : state_rows half = [] ->
                  exhausted sr_id (created (shared_state half)) = false)
    by (intros _; reflexivity).
  split; [reflexivity|]. split; [exact Hb|]. split; [exact Hfree|].
  destruct (init_db_makes_store_usable later noon half Hb Hfree)
    as (db1 & Hrun & Hne & _).
  exists db1. split; assumption.
Defined.

(** ** The endpoints *)

Lemma get_logs_page_size page limit clock fault db r db' :
  get_logs page limit clock fault db = (Ok r, db') ->
  0 <= limit ->
  Z.of_nat (List.length (lp_logs r)) <= limit /\
  lp_page r = page /\ lp_limit r = limit.
Proof.
  intros Hrun Hl.
  apply get_logs_ok_inv in Hrun as (lg & Hlg & -> & _ & _).
  unfold logs_page. cbn [lp_logs lp_page lp_limit].
  split; [|split; reflexivity].
  rewrite length_map. unfold limit_offset.
  replace (limit <? 0) with false by (symmetry; apply Z.ltb_ge; lia).
  rewrite length_firstn. lia.
Qed.

(** X13: [POST /update] changes nothing unless the request carries the
    configured API key and at least one field: a wrong key is answered 401
    "Invalid API Key", a missing key or a body with neither counter nor
    message 422, and in each case the store is the one before the request. *)
Theorem update_endpoint_rejects API_KEY x_api_key body clock fault db :
  x_api_key <> Some API_KEY \/
  (req_counter body = None /\ req_message body = None) ->
  update_state_endpoint API_KEY x_api_key body clock fault db =
  (match x_api_key with
   | None => Failed Unprocessable
   | Some key =>
       if String.eqb key API_KEY
       then Failed Unprocessable
       else Failed (Unauthorized "Invalid API Key")
   end, db).
Proof.
  intros H. unfold update_state_endpoint, verify_api_key.
  destruct x_api_key as [key|]; [|reflexivity].
  destruct (String.eqb_spec key API_KEY) as [->|Hne]; cbn [negb]; [|reflexivity].
  destruct H as [H|[Hc Hm]]; [congruence|].
  unfold validate_at_least_one_field. rewrite Hc, Hm. reflexivity.
Qed.

Lemma update_endpoint_rejects_witness :
  Some "guess"%string <> Some "secret"%string /\
  update_state_endpoint "secret" (Some "guess"%string)
    {| req_counter := Some 7; req_message := None |} noon None fresh_store =
  (Failed (Unauthorized "Invalid API Key"), fresh_store).
Proof.
  assert (H : Some "guess"%string <> Some "secret"%string) by discriminate.
  split; [exact H|].
  exact (update_endpoint_rejects "secret" (Some "guess"%string)
           {| req_counter := Some 7; req_message := None |} noon None
           fresh_store (or_introl H)).
Defined.

(** X14: whatever the request, [POST /update] either leaves the store as it
    is, and then answers with an error, or answers 200 with success and has
    appended exactly one log row whose update type is ["counter"],
    ["message"] or ["counter, message"] (never the empty label) and whose old
    and new values are the old_state and new_state of the response. *)
Theorem update_endpoint_logs_a_label API_KEY x_api_key body clock fault db :
  match update_state_endpoint API_KEY x_api_key body clock fault db with
  | (Failed _, db') => db' = db
  | (Replied resp, db') =>
      up_success resp = true /\
      exists entry,
        log_rows db' = (log_rows db ++ [entry])%list /\
        (lr_update_type entry = "counter"%string \/
         lr_update_type entry = "message"%string \/
         lr_update_type entry = "counter, message"%string) /\
        up_old_state resp = {| st_counter := lr_old_counter entry;
                               st_message := lr_old_message entry |} /\
        up_new_state resp = {| st_counter := lr_new_counter entry;
                               st_message := lr_new_message entry |}
  end.
Proof.
  unfold update_state_endpoint, verify_api_key.
  destruct x_api_key as [key|]; [|reflexivity].
  destruct (negb (String.eqb key API_KEY)); [reflexivity|].
  unfold validate_at_least_one_field.
  destruct body as [counter message]. cbn [req_counter req_message].
  assert (Hrun : forall c m, c <> None \/ m <> None ->
    match
      match update_state c m clock fault db with
      | (Ok result, db') =>
          (Replied
             {| up_success := true;
                up_message := "State updated successfully";
                up_old_state := {| st_counter := ur_old_counter result;
                                   st_message := ur_old_message result |};
                up_new_state := {| st_counter := ur_new_counter result;
                                   st_message := ur_new_message result |} |},
           db')
      | (Err e, db') => (Failed (Unhandled e), db')
      end
    with
    | (Failed _, db') => db' = db
    | (Replied resp, db') =>
        up_success resp = true /\
        exists entry,
          log_rows db' = (log_rows db ++ [entry])%list /\
          (lr_update_type entry = "counter"%string \/
           lr_update_type entry = "message"%string \/
           lr_update_type entry = "counter, message"%string) /\
          up_old_state resp = {| st_counter := lr_old_counter entry;
                                 st_message := lr_old_message entry |} /\
          up_new_state resp = {| st_counter := lr_new_counter entry;
                                 st_message := lr_new_message entry |}
    end).
  { intros c m Hp.
    destruct (update_state c m clock fault db) as [[res|e] db'] eqn:Hu.
    - apply update_state_ok_inv in Hu as (st & lg & Hst & Hlg & -> & ->).
      split; [reflexivity|]. exists (new_entry clock c m db lg).
      split; [now apply updated_log_rows|].
      split; [|split; reflexivity].
      unfold new_entry, log_record. cbn [lr_update_type]. rewrite label_cases.
      destruct c, m; auto. destruct Hp; congruence.
    - eapply update_state_rollback; eassumption. }
  destruct counter as [v|], message as [s|]; try reflexivity;
    apply Hrun; (left; discriminate) || (right; discriminate).
Qed.

(** X15: [GET /logs] never changes the store and never divides by zero. It
    answers 422 exactly when page < 1 or limit is outside [1,100] (page
    defaulting to 1 and limit to 10); a 200 answer repeats that page and
    limit and carries at most limit, hence at most 100, entries. *)
Theorem logs_endpoint_bounds page limit clock fault db :
  let p := match page with Some p => p | None => 1 end in
  let l := match limit with Some l => l | None => 10 end in
  snd (get_logs_endpoint page limit clock fault db) = db /\
  fst (get_logs_endpoint page limit clock fault db) <>
    Failed (Unhandled ZeroDivisionError) /\
  (fst (get_logs_endpoint page limit clock fault db) = Failed Unprocessable <->
   ~ (1 <= p /\ 1 <= l <= 100)) /\
  (forall r,
      fst (get_logs_endpoint page limit clock fault db) = Replied r ->
      lp_page r = p /\ lp_limit r = l /\
      Z.of_nat (List.length (lp_logs r)) <= l <= 100).
Proof.
  intros p l. unfold get_logs_endpoint. fold p l.
  destruct ((1 <=? p) && ((1 <=? l) && (l <=? 100))) eqn:Hb.
  - apply andb_true_iff in Hb as [Hp Hl].
    apply andb_true_iff in Hl as [Hl1 Hl2].
    apply Z.leb_le in Hp, Hl1, Hl2.
    pose proof (get_logs_file p l clock fault db) as Hfile.
    destruct (get_logs p l clock fault db) as [[r|e] db'] eqn:Hrun;
      cbn [fst snd] in *.
    + split; [exact Hfile|]. split; [discriminate|].
      split; [split; [discriminate|intros H; exfalso; apply H; lia]|].
      intros r' Hr'. inversion Hr'; subst r'.
      destruct (get_logs_page_size p l clock fault db r db' Hrun ltac:(lia))
        as (Hlen & Hpage & Hlimit).
      repeat split; auto; lia.
    + split; [exact Hfile|]. split.
      * intros H. inversion H; subst e.
        rewrite get_logs_run in Hrun. unfold io_error, missing in Hrun.
        destruct (hit fault 0); [discriminate|].
        destruct (update_logs db); [|discriminate].
        replace (l =? 0) with false in Hrun
          by (symmetry; apply Z.eqb_neq; lia).
        rewrite andb_false_r in Hrun.
        destruct (hit fault 1); [discriminate|].
        destruct (in_int64 l && in_int64 ((p - 1) * l)); discriminate.
      * split; [split; [discriminate|intros H; exfalso; apply H; lia]|].
        discriminate.
  - split; [reflexivity|]. split; [discriminate|].
    split; [|discriminate]. split; [|reflexivity].
    intros _ [Hp [Hl1 Hl2]].
    apply Z.leb_le in Hp, Hl1, Hl2. rewrite Hp, Hl1, Hl2 in Hb. discriminate.
Qed.

(** X16: on a store with its log table, [GET /logs] with valid parameters
    whose offset (page - 1) * limit exceeds 2^63 - 1 is answered with a
    server error: the [OverflowError] of [get_logs] is not handled. *)
Theorem logs_endpoint_overflow page limit clock db lg :
  update_logs db = Some lg ->
  1 <= page ->
  1 <= limit <= 100 ->
  2 ^ 63 - 1 < (page - 1) * limit ->
  get_logs_endpoint (Some page) (Some limit) clock None db =
  (Failed (Unhandled OverflowError), db).
Proof.
  intros Hlg Hp Hl Ho. unfold get_logs_endpoint.
  replace ((1 <=? page) && ((1 <=? limit) && (limit <=? 100))) with true.
  2:{ symmetry. rewrite !andb_true_iff, !Z.leb_le. lia. }
  rewrite (get_logs_offset_overflow page limit clock db lg); auto.
Qed.

Lemma logs_endpoint_overflow_witness :
  update_logs fresh_store <> None /\ 1 <= 2 ^ 63 + 1 /\ 1 <= 1 <= 100 /\
  2 ^ 63 - 1 < (2 ^ 63 + 1 - 1) * 1 /\
  get_logs_endpoint (Some (2 ^ 63 + 1)) (Some 1) noon None fresh_store =
  (Failed (Unhandled OverflowError), fresh_store).
Proof.
  assert (Hlg : update_logs fresh_store = Some {| rows := []; seq := 0 |})
    by reflexivity.
  assert (Hp : 1 <= 2 ^ 63 + 1) by (vm_compute; discriminate).
  assert (Hl : 1 <= 1 <= 100) by lia.
  assert (Ho : 2 ^ 63 - 1 < (2 ^ 63 + 1 - 1) * 1) by (vm_compute; reflexivity).
  split; [discriminate|]. split; [exact Hp|]. split; [exact Hl|].
  split; [exact Ho|].
  exact (logs_endpoint_overflow (2 ^ 63 + 1) 1 noon fresh_store _ Hlg Hp Hl Ho).
Defined.

(** X18: an authorised request is carried out. On a store with both tables,
    a state row and a log table that has a rowid left, [POST /update] with
    the configured key and a 64-bit counter [v] is answered 200, the
    new_state of the response has counter [v] and the unchanged message, and
    [get_current_state] then returns that state. *)
Theorem update_endpoint_accepts API_KEY clock clock' db st lg row v :
  shared_state db = Some st ->
  update_logs db = Some lg ->
  latest (rows st) = Some row ->
  bindable (sr_counter row) = true ->
  exhausted lr_id lg = false ->
  - 2 ^ 63 <= v <= 2 ^ 63 - 1 ->
  exists resp db',
    update_state_endpoint API_KEY (Some API_KEY)
      {| req_counter := Some v; req_message := None |} clock None db =
      (Replied resp, db') /\
    up_old_state resp = {| st_counter := sr_counter row;
                           st_message := sr_message row |} /\
    up_new_state resp = {| st_counter := Some v; st_message := sr_message row |} /\
    get_current_state clock' None db' = (Ok (up_new_state resp), db').
Proof.
  intros Hst Hlg Hrow Hb Hfree Hv. apply in_int64_iff in Hv.
  assert (Hc : stored_counter db = sr_counter row)
    by (unfold stored_counter, state_rows; rewrite Hst, Hrow; reflexivity).
  assert (Hm : stored_message db = sr_message row)
    by (unfold stored_message, state_rows; rewrite Hst, Hrow; reflexivity).
  unfold update_state_endpoint, verify_api_key.
  rewrite String.eqb_refl. cbn [negb validate_at_least_one_field req_counter
                                req_message].
  rewrite (update_state_ok (Some v) None clock db st lg)
    by (try assumption; rewrite Hc; exact Hb).
  eexists _, _. split; [reflexivity|].
  unfold update_result.
  cbn [up_old_state up_new_state ur_old_counter ur_old_message ur_new_counter
       ur_new_message merged].
  rewrite Hc, Hm. split; [reflexivity|]. split; [reflexivity|].
  rewrite get_current_state_run. cbn [hit]. cbn [updated shared_state].
  fold (updated clock (Some v) None db st lg).
  rewrite updated_stored_counter, updated_stored_message by assumption.
  unfold state_rows. rewrite Hst, Hrow. cbn [merged]. rewrite Hm. reflexivity.
Qed.

Lemma update_endpoint_accepts_witness :
  shared_state five_hi <> None /\ update_logs five_hi <> None /\
  exhausted lr_id {| rows := []; seq := 0 |} = false /\
  - 2 ^ 63 <= 9 <= 2 ^ 63 - 1 /\
  exists resp,
    update_state_endpoint "secret" (Some "secret"%string)
      {| req_counter := Some 9; req_message := None |} noon None five_hi =
      (Replied resp, nine_hi) /\
    up_new_state resp = {| st_counter := Some 9; st_message := Some "hi"%string |}.
Proof.
  assert (Hst : shared_state five_hi =
                Some {| rows := state_rows five_hi; seq := 1 |}) by reflexivity.
  assert (Hlg : update_logs five_hi = Some {| rows := []; seq := 0 |})
    by reflexivity.
  assert (Hrow : latest (rows {| rows := state_rows five_hi; seq := 1 |}) =
                 Some {| sr_id := 1; sr_counter := Some 5;
                         sr_message := Some "hi"%string;
                         sr_updated_at := noon 1%nat |}) by reflexivity.
  assert (Hb : bindable (Some 5) = true) by reflexivity.
  assert (Hv : - 2 ^ 63 <= 9 <= 2 ^ 63 - 1) by (split; vm_compute; discriminate).
  assert (Hfree : exhausted lr_id {| rows := @nil LogRow; seq := 0 |} = false)
    by reflexivity.
  split; [discriminate|]. split; [discriminate|]. split; [exact Hfree|].
  split; [exact Hv|].
  destruct (update_endpoint_accepts "secret" noon later five_hi _ _ _ 9
              Hst Hlg Hrow Hb Hfree Hv) as (resp & db' & Hrun & _ & Hnew & _).
  assert (Hdb : db' = nine_hi).
  { assert (E : snd (update_state_endpoint "secret" (Some "secret"%string)
                       {| req_counter := Some 9; req_message := None |}
                       noon None five_hi) = nine_hi) by (vm_compute; reflexivity).
    rewrite Hrun in E. exact E. }
  subst db'. exists resp. split; [exact Hrun|exact Hnew].
Defined.

(** ** From an update to the first page of the log *)

Lemma insert_desc_below r x rest :
  String.ltb (lr_timestamp x) (lr_timestamp r) = true ->
  insert_desc x (r :: rest) = r :: insert_desc x rest.
Proof.
  intros H. simpl. rewrite (ltb_leb_false _ _ H). reflexivity.
Qed.

Lemma order_by_newest_last r l :
  (forall x, In x l -> String.ltb (lr_timestamp x) (lr_timestamp r) = true) ->
  order_by_timestamp_desc (l ++ [r]) = r :: order_by_timestamp_desc l.
Proof.
  unfold order_by_timestamp_desc. induction l as [|x l IH]; intros H.
  - reflexivity.
  - simpl. rewrite IH by (intros y Hy; apply H; now right).
    apply insert_desc_below. apply H. now left.
Qed.

(** X17: an update shows up at the head of the log. When [update_state]
    returns and the timestamp of its INSERT is later than the timestamps of
    all earlier log rows, the first entry of page 1 of [get_logs] (for any
    limit in [1,100]) is the entry of that update: its old and new values are
    the ones the call returned. *)
Theorem update_heads_first_page counter message clock clock' db res db' limit :
  update_state counter message clock None db = (Ok res, db') ->
  (forall row, In row (log_rows db) ->
               String.ltb (lr_timestamp row) (clock 2%nat) = true) ->
  1 <= limit <= 100 ->
  exists r entry rest,
    get_logs 1 limit clock' None db' = (Ok r, db') /\
    lp_logs r = entry :: rest /\
    le_timestamp entry = clock 2%nat /\
    le_old_counter entry = ur_old_counter res /\
    le_new_counter entry = ur_new_counter res /\
    le_old_message entry = ur_old_message res /\
    le_new_message entry = ur_new_message res.
Proof.
  intros Hrun Hnewer Hl.
  apply update_state_ok_inv in Hrun as (st & lg & Hst & Hlg & -> & ->).
  set (db' := updated clock counter message db st lg).
  assert (Hlg' : update_logs db' =
                 Some (appended lr_id lg
                         (log_record (clock 2%nat)
                            (stored_counter db) (merged counter (stored_counter db))
                            (stored_message db) (merged message (stored_message db))
                            (label counter message)))) by reflexivity.
  assert (Hrows : log_rows db = rows lg) by (unfold log_rows; now rewrite Hlg).
  rewrite (get_logs_ok 1 limit clock' db' _ Hlg' Hl)
    by (split; vm_compute; discriminate).
  unfold logs_page, appended. cbn [rows lp_logs].
  fold (new_entry clock counter message db lg).
  rewrite order_by_newest_last
    by (intros x Hx; apply Hnewer; rewrite Hrows; exact Hx).
  unfold limit_offset.
  replace (limit <? 0) with false by (symmetry; apply Z.ltb_ge; lia).
  change ((1 - 1) * limit) with (0 * limit). rewrite Z.mul_0_l.
  cbn [Z.to_nat skipn].
  destruct (Z.to_nat limit) as [|n] eqn:Hn; [lia|].
  cbn [firstn map]. eexists _, _, _. split; [reflexivity|].
  split; [reflexivity|]. repeat split.
Qed.

Lemma update_heads_first_page_witness :
  update_state None (Some "x"%string) later None nine_hi =
    (Ok {| ur_old_counter := Some 9; ur_new_counter := Some 9;
           ur_old_message := Some "hi"%string;
           ur_new_message := Some "x"%string |}, two_logs) /\
  1 <= 10 <= 100 /\
  exists r rest,
    get_logs 1 10 noon None two_logs = (Ok r, two_logs) /\
    lp_logs r = newer_entry :: rest.
Proof.
  assert (Hrun : update_state None (Some "x"%string) later None nine_hi =
                 (Ok {| ur_old_counter := Some 9; ur_new_counter := Some 9;
                        ur_old_message := Some "hi"%string;
                        ur_new_message := Some "x"%string |}, two_logs))
    by (vm_compute; reflexivity).
  assert (Hnewer : forall row, In row (log_rows nine_hi) ->
                     String.ltb (lr_timestamp row) (later 2%nat) = true).
  { intros row [<-|[]]. reflexivity. }
  assert (Hl : 1 <= 10 <= 100) by lia.
  split; [exact Hrun|]. split; [exact Hl|].
  destruct (update_heads_first_page None (Some "x"%string) later noon nine_hi
              _ two_logs 10 Hrun Hnewer Hl)
    as (r & entry & rest & Hget & Hlogs & _).
  exists r, rest. split; [exact Hget|].
  rewrite Hlogs. f_equal.
  assert (E : fst (get_logs 1 10 noon None two_logs) = Ok two_logs_page)
    by (vm_compute; reflexivity).
  rewrite Hget in E. cbn [fst] in E. inversion E as [Hr]. rewrite Hr in Hlogs.
  cbn [lp_logs two_logs_page] in Hlogs. inversion Hlogs. reflexivity.
Defined.

(** ** After startup *)

(** X19: once [init_db] has run on a new file, as it does when the
    application starts, the state table holds exactly one row, the one with
    id 1, after any sequence of calls of the four functions, with any
    faults, and [get_current_state] returns. *)
Theorem single_state_row_after_startup clock clock' calls :
  let db := snd (invoke_all calls (snd (init_db clock None empty_database))) in
  map sr_id (state_rows db) = [1] /\
  exists s, get_current_state clock' None db = (Ok s, db).
Proof.
  intros db. subst db.
  set (db0 := snd (init_db clock None empty_database)).
  assert (Hne : state_rows db0 <> []) by discriminate.
  pose proof (invoke_all_state_ids calls db0 Hne) as Hids.
  change (map sr_id (state_rows db0)) with [1] in Hids.
  split; [exact Hids|].
  rewrite get_current_state_run. cbn [hit].
  unfold state_rows in Hids.
  destruct (shared_state (snd (invoke_all calls db0))); [eauto|discriminate].
Qed.

(** ** When a table has no rowid left *)

(** X20: an AUTOINCREMENT table whose largest rowid ever is 2^63 - 1 takes
    no more rows. [update_state] on a store whose log table is in that state
    raises [OperationalError] "database or disk is full" on its INSERT and
    the store, the state included, is unchanged; [init_db] on a store whose
    state table has no row and is in that state raises the same error,
    having only created the missing tables and switched to WAL. *)
Theorem full_tables_raise clock db :
  (forall st lg counter message,
      shared_state db = Some st ->
      update_logs db = Some lg ->
      bindable (stored_counter db) = true ->
      bindable (merged counter (stored_counter db)) = true ->
      exhausted lr_id lg = true ->
      update_state counter message clock None db =
        (Err (OperationalError "database or disk is full"), db)) /\
  (state_rows db = [] ->
   exhausted sr_id (created (shared_state db)) = true ->
   init_db clock None db =
     (Err (OperationalError "database or disk is full"),
      {| journal_mode := WAL;
         shared_state := Some (created (shared_state db));
         update_logs := Some (created (update_logs db)) |})).
Proof.
  split.
  - intros st lg counter message Hst Hlg Bo Bn Hfull.
    rewrite update_state_run. cbn [hit]. rewrite Hst, Hlg, Bo, Bn, Hfull.
    reflexivity.
  - intros Hrows Hfull. rewrite init_db_run. cbv zeta. rewrite Hfull.
    replace (Z.of_nat (List.length (rows (created (shared_state db)))) =? 0)
      with true; [reflexivity|].
    unfold state_rows in Hrows.
    destruct (shared_state db) as [st|]; cbn [created rows];
      [rewrite Hrows|]; reflexivity.
Qed.

Lemma full_tables_raise_witness :
  let db := {| journal_mode := WAL;
               shared_state := Some {| rows := []; seq := 2 ^ 63 - 1 |};
               update_logs := Some {| rows := []; seq := 2 ^ 63 - 1 |} |} in
  state_rows db = [] /\
  exhausted sr_id (created (shared_state db)) = true /\
  exhausted lr_id {| rows := []; seq := 2 ^ 63 - 1 |} = true /\
  init_db noon None db =
    (Err (OperationalError "database or disk is full"), db) /\
  update_state (Some 1) None noon None db =
    (Err (OperationalError "database or disk is full"), db).
Proof.
  intros db.
  assert (Hrows : state_rows db = []) by reflexivity.
  assert (Hsfull : exhausted sr_id (created (shared_state db)) = true)
    by (vm_compute; reflexivity).
  assert (Hlfull : exhausted lr_id {| rows := @nil LogRow; seq := 2 ^ 63 - 1 |}
                   = true) by (vm_compute; reflexivity).
  assert (Hst : shared_state db = Some {| rows := []; seq := 2 ^ 63 - 1 |})
    by reflexivity.
  assert (Hlg : update_logs db = Some {| rows := []; seq := 2 ^ 63 - 1 |})
    by reflexivity.
  assert (Bo : bindable (stored_counter db) = true) by reflexivity.
  assert (Bn : bindable (merged (Some 1) (stored_counter db)) = true)
    by reflexivity.
  split; [exact Hrows|]. split; [exact Hsfull|]. split; [exact Hlfull|].
  split.
  - exact (proj2 (full_tables_raise noon db) Hrows Hsfull).
  - exact (proj1 (full_tables_raise noon db) _ _ (Some 1) None
             Hst Hlg Bo Bn Hlfull).
Defined.
